(** * tools/generate_social_images.py: text shaping, line wrapping,
      colour parsing, card compositing, image fitting, page parsing and
      the batch driver.

    Python values are embedded as follows.
    - [str] is a list of Unicode code points ([N]); ASCII literals are
      written with [py "..."].
    - [int] is [Z].
    - An exception is a constructor of [exn]; a call that may raise
      returns a [result].
    - Library calls whose result depends on data the tool does not own
      (font metrics, glyph reshaping, pixel rasterisation, markup
      selection, the file system) are Section variables. *)

From Stdlib Require Import ZArith NArith Lia List Bool Ascii String.
From Stdlib Require Import QArith Qpower Qminmax Lqa Sorted.
From Stdlib Require PrimFloat FloatOps SpecFloat Uint63.
From stdpp Require Import base list strings gmap.

Local Open Scope Z_scope.

(** ** Python strings *)

Abbreviation str := (list N).

Definition py (s : string) : str :=
  map N_of_ascii (list_ascii_of_string s).

(** [str.isspace] of one code point: the characters Python's [strip] and
    [split] treat as white space. *)
Definition isspace (c : N) : bool :=
  ((9 <=? c) && (c <=? 13) || (28 <=? c) && (c <=? 32)
   || (c =? 133) || (c =? 160) || (c =? 5760)
   || (8192 <=? c) && (c <=? 8202)
   || (c =? 8232) || (c =? 8233) || (c =? 8239) || (c =? 8287)
   || (c =? 12288))%N.

(** [s.lstrip(chars)], [s.rstrip(chars)] with the stripped set given as a
    predicate. *)
Fixpoint lstrip_of (p : N -> bool) (s : str) : str :=
  match s with
  | [] => []
  | c :: s' => if p c then lstrip_of p s' else s
  end.

Definition rstrip_of (p : N -> bool) (s : str) : str :=
  rev (lstrip_of p (rev s)).

(** [s.strip()] *)
Definition strip (s : str) : str := rstrip_of isspace (lstrip_of isspace s).

(** [s.split()]: maximal runs of non white space, in order.  [acc] holds
    the word being read, last character first. *)
Fixpoint split_from (acc : str) (s : str) : list str :=
  match s with
  | [] => match acc with [] => [] | _ => [rev acc] end
  | c :: s' =>
      if isspace c
      then match acc with
           | [] => split_from [] s'
           | _ => rev acc :: split_from [] s'
           end
      else split_from (c :: acc) s'
  end.

Definition split (s : str) : list str := split_from [] s.

(** [sep.join(parts)] *)
Fixpoint join (sep : str) (parts : list str) : str :=
  match parts with
  | [] => []
  | [w] => w
  | w :: rest => w ++ sep ++ join sep rest
  end.

Definition space : str := [32%N].

(** [len(xs)] as a Python int. *)
Definition len {A} (xs : list A) : Z := Z.of_nat (length xs).

Lemma len_snoc {A} (xs : list A) (x : A) : len (xs ++ [x]) = len xs + 1.
Proof. unfold len. rewrite length_app. simpl. lia. Qed.

(** ** Facts about [strip], [split] and [join] *)

(** A word as [split] produces it: not empty, no white space inside. *)
Definition clean (w : str) : Prop :=
  w <> [] /\ Forall (fun c => isspace c = false) w.

Lemma lstrip_of_decompose p s :
  exists pre, s = pre ++ lstrip_of p s /\ Forall (fun c => p c = true) pre.
Proof.
  induction s as [|c s IH]; simpl.
  - exists []. split; [reflexivity | constructor].
  - destruct (p c) eqn:E.
    + destruct IH as (pre & Hs & Hp). exists (c :: pre). split.
      * simpl. f_equal. exact Hs.
      * constructor; assumption.
    + exists []. split; [reflexivity | constructor].
Qed.

Lemma rstrip_of_decompose p s :
  exists post, s = rstrip_of p s ++ post /\ Forall (fun c => p c = true) post.
Proof.
  unfold rstrip_of.
  destruct (lstrip_of_decompose p (rev s)) as (pre & Hs & Hp).
  exists (rev pre). split.
  - rewrite <- rev_app_distr, <- Hs, rev_involutive. reflexivity.
  - apply Forall_rev. exact Hp.
Qed.

Lemma strip_decompose s :
  exists pre post, s = pre ++ strip s ++ post /\
    Forall (fun c => isspace c = true) pre /\
    Forall (fun c => isspace c = true) post.
Proof.
  unfold strip.
  destruct (lstrip_of_decompose isspace s) as (pre & Hs & Hp).
  destruct (rstrip_of_decompose isspace (lstrip_of isspace s)) as (post & Ht & Hq).
  exists pre, post. split; [|split; assumption].
  rewrite <- Ht. exact Hs.
Qed.

Lemma split_from_spaces ws : Forall (fun c => isspace c = true) ws ->
  forall acc s, ws <> [] ->
    split_from acc (ws ++ s) =
    match acc with [] => split s | _ => rev acc :: split s end.
Proof.
  induction 1 as [|c ws Hc Hws IH]; intros acc s Hne; [congruence|].
  simpl. rewrite Hc. destruct ws as [|d ws].
  - simpl. destruct acc; reflexivity.
  - specialize (IH [] s ltac:(discriminate)). simpl in IH.
    destruct acc; simpl; rewrite IH; reflexivity.
Qed.

Lemma split_leading_spaces pre s : Forall (fun c => isspace c = true) pre ->
  split (pre ++ s) = split s.
Proof.
  intros H. destruct pre as [|c pre]; [reflexivity|].
  unfold split at 1. rewrite split_from_spaces by (assumption || discriminate).
  reflexivity.
Qed.

Lemma split_from_only_spaces post : Forall (fun c => isspace c = true) post ->
  forall acc, split_from acc post = match acc with [] => [] | _ => [rev acc] end.
Proof.
  intros H acc. destruct post as [|c post]; [reflexivity|].
  rewrite <- (app_nil_r (c :: post)).
  rewrite split_from_spaces by (assumption || discriminate).
  destruct acc; reflexivity.
Qed.

Lemma split_from_trailing_spaces post : Forall (fun c => isspace c = true) post ->
  forall s acc, split_from acc (s ++ post) = split_from acc s.
Proof.
  intros H. induction s as [|c s IH]; intros acc.
  - simpl. apply split_from_only_spaces. exact H.
  - simpl. destruct (isspace c).
    + destruct acc; rewrite IH; reflexivity.
    + apply IH.
Qed.

Lemma split_strip s : split (strip s) = split s.
Proof.
  destruct (strip_decompose s) as (pre & post & Hs & Hp & Hq).
  rewrite Hs at 2. rewrite split_leading_spaces by assumption.
  unfold split. rewrite split_from_trailing_spaces by assumption. reflexivity.
Qed.

Lemma split_from_word w : Forall (fun c => isspace c = false) w ->
  forall acc s, split_from acc (w ++ s) = split_from (rev w ++ acc) s.
Proof.
  induction 1 as [|c w Hc Hw IH]; intros acc s; [reflexivity|].
  simpl. rewrite Hc, IH, <- app_assoc. reflexivity.
Qed.

Lemma split_from_clean s : forall acc,
  Forall (fun c => isspace c = false) acc ->
  Forall clean (split_from acc s).
Proof.
  assert (Hacc : forall acc, Forall (fun c => isspace c = false) acc ->
                 acc <> [] -> clean (rev acc)).
  { intros acc Ha Hne. split.
    - intros E. apply Hne. rewrite <- (rev_involutive acc), E. reflexivity.
    - apply Forall_rev. exact Ha. }
  induction s as [|c s IH]; intros acc Ha; simpl.
  - destruct acc as [|a acc]; constructor; [|constructor].
    apply Hacc; [assumption | discriminate].
  - destruct (isspace c) eqn:E.
    + destruct acc as [|a acc].
      * apply IH. constructor.
      * constructor; [apply Hacc; [assumption | discriminate]|].
        apply IH. constructor.
    + apply IH. constructor; assumption.
Qed.

Lemma split_clean s : Forall clean (split s).
Proof. apply split_from_clean. constructor. Qed.

Lemma split_word w : clean w -> split w = [w].
Proof.
  intros [Hne Hw]. unfold split. rewrite <- (app_nil_r w) at 1.
  rewrite split_from_word by assumption. simpl. rewrite app_nil_r.
  destruct (rev w) eqn:E.
  - exfalso. apply Hne. rewrite <- (rev_involutive w), E. reflexivity.
  - rewrite <- E, rev_involutive. reflexivity.
Qed.

Lemma split_join ws : Forall clean ws -> split (join space ws) = ws.
Proof.
  induction 1 as [|w ws Hw Hws IH]; [reflexivity|].
  destruct ws as [|v ws].
  - simpl. apply split_word. exact Hw.
  - change (join space (w :: v :: ws)) with (w ++ space ++ join space (v :: ws)).
    destruct Hw as [Hne Hc]. unfold split at 1.
    rewrite split_from_word by assumption. rewrite app_nil_r.
    rewrite (split_from_spaces space) by (repeat constructor || discriminate).
    rewrite IH. destruct (rev w) eqn:E.
    + exfalso. apply Hne. rewrite <- (rev_involutive w), E. reflexivity.
    + rewrite <- E, rev_involutive. reflexivity.
Qed.

(** *** Trimmed strings *)

(** The first character, if any, is not white space. *)
Definition starts_clean (s : str) : Prop :=
  match s with
  | [] => True
  | c :: _ => isspace c = false
  end.

(** No white space at either end. *)
Definition trimmed (s : str) : Prop := starts_clean s /\ starts_clean (rev s).

Lemma lstrip_of_isspace_starts_clean s : starts_clean (lstrip_of isspace s).
Proof.
  induction s as [|c s IH]; simpl; [exact I|].
  destruct (isspace c) eqn:E; [exact IH | exact E].
Qed.

Lemma lstrip_of_starts_clean s : starts_clean s -> lstrip_of isspace s = s.
Proof. destruct s as [|c s]; simpl; [reflexivity|]. intros ->. reflexivity. Qed.

Lemma strip_trimmed s : trimmed (strip s).
Proof.
  unfold trimmed, strip, rstrip_of. split.
  - pose proof (lstrip_of_isspace_starts_clean s) as Hhead.
    destruct (rstrip_of_decompose isspace (lstrip_of isspace s)) as (post & Hs & _).
    unfold rstrip_of in Hs.
    destruct (rev (lstrip_of isspace (rev (lstrip_of isspace s)))) as [|c r];
      [exact I|].
    rewrite Hs in Hhead. exact Hhead.
  - rewrite rev_involutive. apply lstrip_of_isspace_starts_clean.
Qed.

Lemma trimmed_strip s : trimmed s -> strip s = s.
Proof.
  intros [Hhead Hlast]. unfold strip, rstrip_of.
  rewrite (lstrip_of_starts_clean s Hhead).
  rewrite (lstrip_of_starts_clean (rev s) Hlast). apply rev_involutive.
Qed.

Lemma strip_idempotent s : strip (strip s) = strip s.
Proof. apply trimmed_strip. apply strip_trimmed. Qed.

Lemma split_from_acc acc s : acc <> [] -> split_from acc s <> [].
Proof.
  revert acc. induction s as [|c s IH]; intros acc Hacc; simpl.
  - destruct acc; [congruence | discriminate].
  - destruct (isspace c).
    + destruct acc; [congruence | discriminate].
    + apply IH. discriminate.
Qed.

(** A non-empty string that starts with a word character has a word. *)
Lemma starts_clean_has_word s : s <> [] -> starts_clean s -> split s <> [].
Proof.
  destruct s as [|c s]; [congruence|]. simpl. intros _ Hc.
  unfold split. simpl. rewrite Hc. apply split_from_acc. discriminate.
Qed.

Lemma strip_has_word s : strip s <> [] -> split s <> [].
Proof.
  intros H. rewrite <- split_strip.
  apply starts_clean_has_word; [exact H | apply strip_trimmed].
Qed.

Lemma blank_strip s : (forall c, In c s -> isspace c = true) -> strip s = [].
Proof.
  intros Hs. destruct (strip s) as [|c t] eqn:E; [reflexivity|exfalso].
  assert (Hw : split s <> []) by (apply strip_has_word; rewrite E; discriminate).
  apply Hw. unfold split. apply split_from_only_spaces.
  apply List.Forall_forall. exact Hs.
Qed.

(** ** Exceptions *)

(** The exception classes the tool meets; [OtherError] stands for any other
    subclass of [Exception] (an [OSError] while reading a file, a decoder
    error of Pillow). *)
Inductive exn : Type :=
| ValueError (msg : str)
| FileNotFoundError (msg : str)
| ZeroDivisionError
| OverflowError
| OtherError (msg : str).

(** The outcome of a call: a value, or an exception raised. *)
Inductive result (A : Type) : Type :=
| Ok (a : A)
| Raise (e : exn).
Arguments Ok {A} a.
Arguments Raise {A} e.

Definition bind {A B} (r : result A) (k : A -> result B) : result B :=
  match r with
  | Ok a => k a
  | Raise e => Raise e
  end.

Notation "'let*' x ':=' r 'in' k" := (bind r (fun x => k))
  (at level 10, x name, r at level 100, k at level 200).

(** ** Text shaper *)

(** [ARABIC_RE]: one code point in the range U+0600 to U+06FF. *)
Definition is_arabic (c : N) : bool := ((1536 <=? c) && (c <=? 1791))%N.

(** [ARABIC_RE.search(text)] as a truth value. *)
Definition ARABIC_RE_search (text : str) : bool := existsb is_arabic text.

Section Shaper.
(** [arabic_reshaper.reshape] and [bidi.algorithm.get_display]. *)
Variable reshape : str -> str.
Variable get_display : str -> str.

Definition shape_text (text : str) : str :=
  let text := strip text in
  match text with
  | [] => []
  | _ =>
      if negb (ARABIC_RE_search text) then text
      else get_display (reshape text)
  end.

Lemma ARABIC_RE_search_false text :
  (forall c, In c text -> ~ (1536 <= c <= 1791)%N) ->
  ARABIC_RE_search text = false.
Proof.
  intros H. unfold ARABIC_RE_search.
  destruct (existsb is_arabic text) eqn:E; [|reflexivity].
  apply existsb_exists in E. destruct E as (c & Hin & Hc).
  exfalso. apply (H c Hin). unfold is_arabic in Hc.
  apply andb_true_iff in Hc. destruct Hc as [H1 H2].
  apply N.leb_le in H1, H2. lia.
Qed.

(** C2 (amended): on a text with no code point in U+0600..U+06FF the
    shaper returns the text with its surrounding white space trimmed, and
    calls neither the reshaper nor the bidi reordering. *)
Theorem shape_text_no_arabic (text : str) :
  (forall c, In c text -> ~ (1536 <= c <= 1791)%N) ->
  shape_text text = strip text.
Proof.
  intros H. unfold shape_text.
  destruct (strip text) as [|c t] eqn:E; [reflexivity|].
  rewrite ARABIC_RE_search_false; [reflexivity|].
  intros d Hd. apply H.
  destruct (strip_decompose text) as (pre & post & Hs & _ & _).
  rewrite Hs, E. apply in_or_app. right. apply in_or_app. left. exact Hd.
Qed.
(** *** Further properties of the shaper *)

Lemma shape_text_fast_path text :
  ARABIC_RE_search (strip text) = false -> shape_text text = strip text.
Proof.
  intros H. unfold shape_text. destruct (strip text) as [|c t]; [reflexivity|].
  rewrite H. reflexivity.
Qed.

Lemma In_strip text c : In c (strip text) -> In c text.
Proof.
  intros Hc. destruct (strip_decompose text) as (pre & post & Hs & _ & _).
  rewrite Hs. apply in_or_app. right. apply in_or_app. left. exact Hc.
Qed.

(** A text made of white space only (or empty) is shaped to the empty
    string. *)
Theorem shape_text_blank (text : str) :
  (forall c, In c text -> isspace c = true) -> shape_text text = [].
Proof.
  intros H. unfold shape_text. rewrite (blank_strip text H). reflexivity.
Qed.

(** X4: On a text without Arabic code points, shaping an already shaped text
    changes nothing. *)
Theorem shape_text_idempotent (text : str) :
  (forall c, In c text -> ~ (1536 <= c <= 1791)%N) ->
  shape_text (shape_text text) = shape_text text.
Proof.
  intros H.
  assert (H1 : ARABIC_RE_search (strip text) = false).
  { apply ARABIC_RE_search_false. intros c Hc. apply H. apply In_strip. exact Hc. }
  rewrite (shape_text_fast_path text H1).
  rewrite shape_text_fast_path; rewrite strip_idempotent; [reflexivity | exact H1].
Qed.
End Shaper.

Lemma shape_text_no_arabic_witness :
  shape_text (fun s => s) (fun s => s) (py "APEX LABS ") = py "APEX LABS".
Proof.
  rewrite (shape_text_no_arabic (fun s => s) (fun s => s) (py "APEX LABS ")).
  - reflexivity.
  - intros c Hc. vm_compute in Hc.
    repeat (destruct Hc as [<- | Hc]; [lia|]). destruct Hc.
Defined.

Lemma shape_text_blank_witness :
  shape_text (fun s => s) (fun s => s) [32; 9; 10; 160]%N = [].
Proof.
  apply (shape_text_blank (fun s => s) (fun s => s) [32; 9; 10; 160]%N).
  intros c Hc. simpl in Hc.
  repeat (destruct Hc as [<- | Hc]; [reflexivity|]). destruct Hc.
Defined.

Lemma shape_text_idempotent_witness :
  shape_text (fun s => s) (fun s => s)
    (shape_text (fun s => s) (fun s => s) (py " apex-labs.tech ")) =
  shape_text (fun s => s) (fun s => s) (py " apex-labs.tech ").
Proof.
  apply (shape_text_idempotent (fun s => s) (fun s => s) (py " apex-labs.tech ")).
  intros c Hc. vm_compute in Hc.
  repeat (destruct Hc as [<- | Hc]; [lia|]). destruct Hc.
Defined.

(** C2 as stated fails: a text without Arabic code points but with a
    leading blank is not returned unchanged. *)
Lemma shape_text_changes_padded_text :
  (forall c, In c (py " a") -> ~ (1536 <= c <= 1791)%N) /\
  shape_text (fun s => s) (fun s => s) (py " a") <> py " a".
Proof.
  split.
  - intros c Hc. vm_compute in Hc.
    repeat (destruct Hc as [<- | Hc]; [lia|]). destruct Hc.
  - vm_compute. discriminate.
Qed.

(** ** Line wrapper *)

Section Wrapper.
Variable reshape : str -> str.
Variable get_display : str -> str.
(** The drawing context and the font are opaque handles; [textbbox] is
    [ImageDraw.textbbox((0, 0), text, font=font)]. *)
Variables ImageDraw ImageFont : Type.
Variable textbbox : ImageDraw -> str -> ImageFont -> Z * Z * Z * Z.

Definition text_width (draw : ImageDraw) (text : str) (font : ImageFont) : Z :=
  let '(x0, _, x1, _) := textbbox draw text font in
  Z.max 0 (x1 - x0).

Section Loop.
Variable draw : ImageDraw.
Variable font : ImageFont.
Variable max_width : Z.
Variable max_lines : Z.

(** The width test of one candidate line. *)
Definition fits (candidate : str) : bool :=
  text_width draw (shape_text reshape get_display candidate) font <=? max_width.

(** The [for word in words] loop with its early [return lines], followed
    by the final flush, as a function of the loop state. *)
Fixpoint wrap_loop (words : list str) (lines : list str) (current : list str)
  : list str :=
  match words with
  | [] =>
      match current with
      | [] => lines
      | _ => if len lines <? max_lines then lines ++ [join space current]
             else lines
      end
  | word :: rest =>
      let candidate :=
        match current with
        | [] => word
        | _ => join space (current ++ [word])
        end in
      if fits candidate then wrap_loop rest lines (current ++ [word])
      else
        let '(lines', current') :=
          match current with
          | [] => (lines ++ [word], current)
          | _ => (lines ++ [join space current], [word])
          end in
        if max_lines <=? len lines' then lines'
        else wrap_loop rest lines' current'
  end.

Definition wrap_text (text : str) : list str :=
  let words := split (strip text) in
  match words with
  | [] => []
  | _ => wrap_loop words [] []
  end.

(** *** Invariants of the loop *)

(** Every line the loop adds is the join of a non-empty group of
    consecutive words; the groups, followed by the dropped words, are
    the words still to place; the cap is respected, and words are
    dropped only when the cap is reached. *)
Lemma wrap_loop_groups words : forall lines current,
  len lines < max_lines ->
  exists groups dropped,
    wrap_loop words lines current = lines ++ map (join space) groups /\
    Forall (fun g => g <> []) groups /\
    concat groups ++ dropped = current ++ words /\
    len (lines ++ map (join space) groups) <= max_lines /\
    (dropped <> [] -> len (lines ++ map (join space) groups) = max_lines) /\
    (current ++ words <> [] -> groups <> []).
Proof.
  induction words as [|word rest IH]; intros lines current Hlt.
  - simpl. destruct current as [|c cs].
    + exists [], []. simpl. rewrite !app_nil_r.
      repeat split; auto; try lia; congruence.
    + rewrite (proj2 (Z.ltb_lt _ _) Hlt).
      exists [c :: cs], []. simpl map. rewrite len_snoc. simpl.
      rewrite !app_nil_r.
      repeat split; auto; try lia; try congruence.
  - simpl. destruct (fits _) eqn:Hfit.
    + destruct (IH lines (current ++ [word]) Hlt)
        as (groups & dropped & Hres & Hne & Hcat & Hcap & Hdrop & Hnz).
      exists groups, dropped. rewrite <- app_assoc in Hcat. simpl in Hcat.
      repeat split; auto.
      intros _. apply Hnz. destruct current; discriminate.
    + destruct current as [|c cs].
      * destruct (max_lines <=? len (lines ++ [word])) eqn:Hfull.
        -- apply Z.leb_le in Hfull. rewrite len_snoc in Hfull.
           exists [[word]], rest. simpl map. rewrite len_snoc. simpl.
           repeat split; auto; try lia; try congruence.
        -- apply Z.leb_gt in Hfull.
           destruct (IH (lines ++ [word]) [] Hfull)
             as (groups & dropped & Hres & Hne & Hcat & Hcap & Hdrop & Hnz).
           exists ([word] :: groups), dropped.
           simpl in *. rewrite <- app_assoc in Hres, Hcap, Hdrop. simpl in *.
           repeat split; auto; congruence.
      * remember (c :: cs) as cur eqn:Hcur.
        destruct (max_lines <=? len (lines ++ [join space cur])) eqn:Hfull.
        -- apply Z.leb_le in Hfull. rewrite len_snoc in Hfull.
           exists [cur], (word :: rest). simpl map. rewrite len_snoc.
           simpl. rewrite app_nil_r.
           assert (cur <> []) by congruence.
           repeat split; auto; try lia; try congruence.
        -- apply Z.leb_gt in Hfull.
           destruct (IH (lines ++ [join space cur]) [word] Hfull)
             as (groups & dropped & Hres & Hne & Hcat & Hcap & Hdrop & Hnz).
           exists (cur :: groups), dropped.
           assert (cur <> []) by congruence.
           simpl in *. rewrite <- app_assoc in Hres, Hcap, Hdrop. simpl in *.
           repeat split; auto; try congruence.
           rewrite <- app_assoc, Hcat. reflexivity.
Qed.

(** A returned line passes the width test unless it holds one word. *)
Definition line_ok (line : str) : Prop :=
  (2 <= length (split line))%nat ->
  text_width draw (shape_text reshape get_display line) font <= max_width.

Lemma line_ok_word w : clean w -> line_ok w.
Proof. intros Hw Hlen. rewrite split_word in Hlen by assumption. simpl in Hlen. lia. Qed.

Lemma line_ok_join current :
  Forall clean current ->
  ((2 <= length current)%nat -> fits (join space current) = true) ->
  line_ok (join space current).
Proof.
  intros Hc Hfit Hlen. rewrite split_join in Hlen by assumption.
  apply Z.leb_le. apply Hfit. exact Hlen.
Qed.

Lemma wrap_loop_fits words : forall lines current,
  Forall clean words -> Forall clean current ->
  Forall line_ok lines ->
  ((2 <= length current)%nat -> fits (join space current) = true) ->
  Forall line_ok (wrap_loop words lines current).
Proof.
  induction words as [|word rest IH]; intros lines current Hws Hcs Hls Hcur.
  - simpl. destruct current as [|c cs]; [assumption|].
    destruct (len lines <? max_lines); [|assumption].
    apply Forall_app. split; [assumption|].
    constructor; [|constructor]. apply line_ok_join; assumption.
  - inversion Hws as [|? ? Hw Hrest]; subst.
    simpl.
    match goal with
    | |- context [if fits ?cand then _ else _] => destruct (fits cand) eqn:Hfit
    end.
    + apply IH; auto.
      * apply Forall_app. split; [assumption|].
        constructor; [assumption | constructor].
      * intros Hlen. destruct current as [|c cs]; [simpl in Hlen; lia|].
        exact Hfit.
    + destruct current as [|c cs].
      * assert (Hls' : Forall line_ok (lines ++ [word])).
        { apply Forall_app. split; [assumption|].
          constructor; [apply line_ok_word; assumption | constructor]. }
        destruct (max_lines <=? len (lines ++ [word])); [assumption|].
        apply IH; [assumption | constructor | assumption | simpl; lia].
      * assert (Hls' : Forall line_ok (lines ++ [join space (c :: cs)])).
        { apply Forall_app. split; [assumption|].
          constructor; [apply line_ok_join; assumption | constructor]. }
        destruct (max_lines <=? len (lines ++ [join space (c :: cs)]));
          [assumption|].
        apply IH; [assumption | | assumption | simpl; lia].
        constructor; [assumption | constructor].
Qed.

Lemma concat_split_join groups :
  Forall (Forall clean) groups ->
  concat (map split (map (join space) groups)) = concat groups.
Proof.
  induction 1 as [|g gs Hg Hgs IH]; [reflexivity|].
  simpl. rewrite split_join by assumption. f_equal. exact IH.
Qed.

(** C1 (amended): for a text with at least one word and a cap of at
    least one line, [wrap_text] returns between 1 and [max_lines] lines;
    each line is the single-space join of a non-empty group of
    consecutive words and nothing else; the words of the lines, in
    order, are a prefix of the words of the text, and words are missing
    only when the cap has been reached. *)
Theorem wrap_text_lines (text : str) :
  split text <> [] -> 1 <= max_lines ->
  1 <= len (wrap_text text) <= max_lines /\
  exists groups dropped,
    wrap_text text = map (join space) groups /\
    Forall (fun g => g <> []) groups /\
    concat groups ++ dropped = split text /\
    concat (map split (wrap_text text)) ++ dropped = split text /\
    (dropped <> [] -> len (wrap_text text) = max_lines).
Proof.
  intros Hwords Hcap. unfold wrap_text. rewrite split_strip.
  destruct (wrap_loop_groups (split text) [] [])
    as (groups & dropped & Hres & Hne & Hcat & Hle & Hdrop & Hnz).
  { unfold len. simpl. lia. }
  simpl in Hres, Hcat, Hle, Hdrop, Hnz.
  destruct (split text) as [|w ws] eqn:E; [congruence|].
  rewrite <- E in *. rewrite Hres. split.
  - split; [|exact Hle].
    specialize (Hnz Hwords). destruct groups; [congruence|].
    unfold len. simpl. lia.
  - exists groups, dropped. repeat split; auto.
    rewrite concat_split_join; [exact Hcat|].
    apply Forall_concat. apply (Forall_app clean (concat groups) dropped).
    rewrite Hcat. apply split_clean.
Qed.

(** C8: a returned line with two or more words measures, once shaped,
    at most [max_width]. *)
Theorem wrap_text_line_width (text line : str) :
  In line (wrap_text text) ->
  (2 <= length (split line))%nat ->
  text_width draw (shape_text reshape get_display line) font <= max_width.
Proof.
  assert (Hall : Forall line_ok (wrap_text text)).
  { unfold wrap_text. destruct (split (strip text)) as [|w ws] eqn:E.
    - constructor.
    - rewrite <- E. apply wrap_loop_fits.
      + apply split_clean.
      + constructor.
      + constructor.
      + simpl. lia. }
  intros Hin. exact (proj1 (List.Forall_forall line_ok _) Hall line Hin).
Qed.
(** *** Further properties of the wrapper *)

Lemma wrap_loop_cap words : forall lines current,
  len lines < Z.max 1 max_lines ->
  len (wrap_loop words lines current) <= Z.max 1 max_lines.
Proof.
  induction words as [|word rest IH]; intros lines current Hlt.
  - simpl. destruct current as [|c cs]; [lia|].
    destruct (Z.ltb_spec (len lines) max_lines); [rewrite len_snoc|]; lia.
  - simpl. destruct (fits _).
    + apply IH. exact Hlt.
    + destruct current as [|c cs].
      * destruct (Z.leb_spec max_lines (len (lines ++ [word]))) as [H|H];
          [rewrite len_snoc; lia|].
        apply IH. lia.
      * destruct (Z.leb_spec max_lines (len (lines ++ [join space (c :: cs)])))
          as [H|H]; [rewrite len_snoc; lia|].
        apply IH. lia.
Qed.

(** X1: For every cap, also zero or negative, [wrap_text] returns at most
    [max(1, max_lines)] lines, and none for a text without a word. *)
Theorem wrap_text_at_most (text : str) :
  (split text = [] -> wrap_text text = []) /\
  len (wrap_text text) <= Z.max 1 max_lines.
Proof.
  unfold wrap_text. rewrite split_strip. split.
  - intros ->. reflexivity.
  - destruct (split text) as [|w ws] eqn:E; [unfold len; simpl; lia|].
    apply wrap_loop_cap. unfold len. simpl. lia.
Qed.

Lemma length_concat_nonempty {A} (groups : list (list A)) :
  Forall (fun g => g <> []) groups ->
  (length groups <= length (concat groups))%nat.
Proof.
  induction 1 as [|g gs Hg Hgs IH]; simpl; [lia|].
  rewrite length_app. destruct g; [congruence | simpl; lia].
Qed.

(** X2: A text of at most [max_lines] words is never truncated. *)
Theorem wrap_text_keeps_all_words (text : str) :
  len (split text) <= max_lines ->
  concat (map split (wrap_text text)) = split text.
Proof.
  intros Hfew. unfold wrap_text. rewrite split_strip.
  destruct (split text) as [|w ws] eqn:E; [reflexivity|].
  rewrite <- E in *.
  assert (Hcap : len ([] : list str) < max_lines).
  { rewrite E in Hfew. unfold len in *. simpl in *. lia. }
  destruct (wrap_loop_groups (split text) [] [] Hcap)
    as (groups & dropped & Hres & Hne & Hcat & Hle & Hdrop & Hnz).
  simpl in Hres, Hcat, Hle, Hdrop. rewrite Hres.
  assert (Hclean : Forall (Forall clean) groups).
  { apply Forall_concat. apply (Forall_app clean (concat groups) dropped).
    rewrite Hcat. apply split_clean. }
  rewrite concat_split_join by assumption.
  destruct dropped as [|d ds]; [rewrite app_nil_r in Hcat; exact Hcat|exfalso].
  specialize (Hdrop ltac:(discriminate)).
  pose proof (length_concat_nonempty groups Hne) as Hlen.
  assert (Hwords : length (split text) = (length (concat groups) + S (length ds))%nat).
  { rewrite <- Hcat, length_app. reflexivity. }
  unfold len in Hfew, Hdrop. rewrite length_map in Hdrop. lia.
Qed.

(** A line in normal form: not empty, its words separated by single
    blanks, nothing before the first word or after the last. *)
Definition normal_line (line : str) : Prop :=
  line <> [] /\ join space (split line) = line.

Lemma normal_line_word w : clean w -> normal_line w.
Proof.
  intros Hw. split; [apply Hw|]. rewrite split_word by assumption. reflexivity.
Qed.

Lemma normal_line_join c cs : Forall clean (c :: cs) -> normal_line (join space (c :: cs)).
Proof.
  intros Hc. split.
  - inversion Hc as [|? ? [Hne _] _]; subst.
    destruct c as [|x c']; [congruence|]. destruct cs; discriminate.
  - rewrite split_join by assumption. reflexivity.
Qed.

Lemma wrap_loop_normal words : forall lines current,
  Forall clean words -> Forall clean current -> Forall normal_line lines ->
  Forall normal_line (wrap_loop words lines current).
Proof.
  induction words as [|word rest IH]; intros lines current Hws Hcs Hls.
  - simpl. destruct current as [|c cs]; [assumption|].
    destruct (len lines <? max_lines); [|assumption].
    apply Forall_app. split; [assumption|].
    constructor; [apply normal_line_join; assumption | constructor].
  - inversion Hws as [|? ? Hw Hrest]; subst. simpl. destruct (fits _).
    + apply IH; [assumption | | assumption].
      apply Forall_app. split; [assumption | constructor; [assumption | constructor]].
    + destruct current as [|c cs].
      * assert (Hls' : Forall normal_line (lines ++ [word])).
        { apply Forall_app. split; [assumption|].
          constructor; [apply normal_line_word; assumption | constructor]. }
        destruct (max_lines <=? len (lines ++ [word])); [assumption|].
        apply IH; [assumption | constructor | assumption].
      * assert (Hls' : Forall normal_line (lines ++ [join space (c :: cs)])).
        { apply Forall_app. split; [assumption|].
          constructor; [apply normal_line_join; assumption | constructor]. }
        destruct (max_lines <=? len (lines ++ [join space (c :: cs)]));
          [assumption|].
        apply IH; [assumption | | assumption].
        constructor; [assumption | constructor].
Qed.

Lemma wrap_text_all_normal (text : str) : Forall normal_line (wrap_text text).
Proof.
  unfold wrap_text. destruct (split (strip text)) as [|w ws] eqn:E.
  - constructor.
  - rewrite <- E. apply wrap_loop_normal; [apply split_clean | constructor | constructor].
Qed.

(** Every returned line is in normal form, whatever white space (tabs,
    newlines, runs of blanks) separated the words of the text. *)
Theorem wrap_text_normal_lines (text line : str) :
  In line (wrap_text text) -> normal_line line.
Proof.
  intros Hin.
  exact (proj1 (List.Forall_forall normal_line _) (wrap_text_all_normal text) line Hin).
Qed.

Lemma wrap_text_all_line_ok (text : str) : Forall line_ok (wrap_text text).
Proof.
  unfold wrap_text. destruct (split (strip text)) as [|w ws] eqn:E.
  - constructor.
  - rewrite <- E. apply wrap_loop_fits.
    + apply split_clean.
    + constructor.
    + constructor.
    + simpl. lia.
Qed.
End Loop.
End Wrapper.

(** A monospaced measure, ten pixels per code point, for the examples. *)
Definition mono_bbox (_ : unit) (text : str) (_ : unit) : Z * Z * Z * Z :=
  (0, 0, 10 * len text, 12).

Definition wrap_mono (max_width max_lines : Z) (text : str) : list str :=
  wrap_text (fun s => s) (fun s => s) unit unit mono_bbox tt tt max_width max_lines text.

Example wrap_mono_two_lines :
  wrap_mono 80 3 (py "for lab  research use only") =
  [py "for lab"; py "research"; py "use only"].
Proof. vm_compute. reflexivity. Qed.

Example wrap_mono_truncated :
  wrap_mono 70 2 (py "for lab  research use only") = [py "for lab"; py "research"].
Proof. vm_compute. reflexivity. Qed.

Example wrap_mono_long_word :
  wrap_mono 30 4 (py "a tremendous b") = [py "a"; py "tremendous"; py "b"].
Proof. vm_compute. reflexivity. Qed.

Lemma wrap_text_lines_witness :
  1 <= len (wrap_mono 70 2 (py "for lab  research use only")) <= 2.
Proof.
  apply (wrap_text_lines (fun s => s) (fun s => s) unit unit mono_bbox tt tt 70 2
           (py "for lab  research use only")).
  - vm_compute. discriminate.
  - lia.
Defined.

(** C1 as stated fails: a non-empty text made of blanks only yields no
    line at all. *)
Lemma wrap_text_blank_text_no_line :
  py " " <> [] /\ 1 <= 1 /\ ~ (1 <= len (wrap_mono 70 1 (py " ")) <= 1).
Proof.
  split; [discriminate|]. split; [lia|]. vm_compute. intros [H _]. apply H. reflexivity.
Qed.

Lemma wrap_text_line_width_witness :
  text_width unit unit mono_bbox tt
    (shape_text (fun s => s) (fun s => s) (py "for lab")) tt <= 70.
Proof.
  apply (wrap_text_line_width (fun s => s) (fun s => s) unit unit mono_bbox tt tt 70 3
           (py "for lab  research use only") (py "for lab")).
  - vm_compute. left. reflexivity.
  - vm_compute. lia.
Defined.


(** With a cap of zero the first flush still returns its line; when
    nothing is flushed the words are all dropped. *)
Example wrap_mono_zero_cap :
  wrap_mono 30 0 (py "a tremendous b") = [py "a"] /\
  wrap_mono 300 0 (py "a tremendous b") = [].
Proof. split; vm_compute; reflexivity. Qed.

Lemma wrap_text_keeps_all_words_witness :
  concat (map split (wrap_mono 80 3 (py "for lab  research"))) =
  [py "for"; py "lab"; py "research"].
Proof.
  apply (wrap_text_keeps_all_words (fun s => s) (fun s => s) unit unit mono_bbox tt tt 80 3
           (py "for lab  research")).
  vm_compute. discriminate.
Defined.

Lemma wrap_text_normal_lines_witness : normal_line (py "for lab").
Proof.
  apply (wrap_text_normal_lines (fun s => s) (fun s => s) unit unit mono_bbox tt tt 80 3
           (py "for lab  research use only") (py "for lab")).
  vm_compute. left. reflexivity.
Defined.

(** ** Drawing text *)

Section Drawing.
Variable reshape : str -> str.
Variable get_display : str -> str.
Variables ImageDraw ImageFont Fill : Type.
Variable textbbox : ImageDraw -> str -> ImageFont -> Z * Z * Z * Z.

(** A call [draw.text(xy, text, font=font, fill=fill)].  Each of the two
    helpers makes exactly one such call and does nothing else, so each is
    modelled by the call it makes. *)
Record TextCall : Type := mkTextCall {
  text_xy : Z * Z;
  text_content : str;
  text_font : ImageFont;
  text_fill : Fill
}.

Definition draw_text_right (draw : ImageDraw) (text : str) (font : ImageFont)
    (x_right y : Z) (fill : Fill) : TextCall :=
  let text := shape_text reshape get_display text in
  let w := text_width ImageDraw ImageFont textbbox draw text font in
  mkTextCall (x_right - w, y) text font fill.

Definition draw_text_left (draw : ImageDraw) (text : str) (font : ImageFont)
    (x_left y : Z) (fill : Fill) : TextCall :=
  mkTextCall (x_left, y) (shape_text reshape get_display text) font fill.

(** X3: A wrapped line of two or more words, drawn right-aligned at
    [x_right] with the font it was wrapped for, starts inside the column
    of width [max_width] that ends at [x_right]; what is drawn is the
    shaped line. *)
Theorem draw_wrapped_line_in_column (draw : ImageDraw) (font : ImageFont)
    (max_width max_lines x_right y : Z) (fill : Fill) (text line : str) :
  In line (wrap_text reshape get_display ImageDraw ImageFont textbbox draw font
             max_width max_lines text) ->
  (2 <= length (split line))%nat ->
  let call := draw_text_right draw line font x_right y fill in
  x_right - max_width <= fst (text_xy call) <= x_right /\
  snd (text_xy call) = y /\
  text_content call = shape_text reshape get_display line.
Proof.
  intros Hin Hwords call.
  pose proof (wrap_text_all_line_ok reshape get_display ImageDraw ImageFont textbbox
                draw font max_width max_lines text) as Hall.
  pose proof (proj1 (List.Forall_forall _ _) Hall line Hin Hwords) as Hw.
  subst call. unfold draw_text_right. simpl.
  assert (H0 : 0 <= text_width ImageDraw ImageFont textbbox draw
                      (shape_text reshape get_display line) font).
  { unfold text_width. destruct (textbbox _ _ _) as [[[x0 y0] x1] y1]. lia. }
  repeat split; lia.
Qed.
End Drawing.

Lemma draw_wrapped_line_in_column_witness :
  1010 - 80 <=
  fst (text_xy _ _ (draw_text_right (fun s => s) (fun s => s) unit unit unit mono_bbox
                      tt (py "for lab") tt 1010 340 tt)) <= 1010.
Proof.
  apply (draw_wrapped_line_in_column (fun s => s) (fun s => s) unit unit unit mono_bbox
           tt tt 80 3 1010 340 tt (py "for lab  research use only") (py "for lab")).
  - vm_compute. left. reflexivity.
  - vm_compute. lia.
Defined.

(** ** Colour parsing *)

(** [s[i:j]] for [0 <= i <= j]. *)
Definition slice (i j : nat) (s : str) : str := firstn (j - i) (skipn i s).

(** *** [int(text, base)] on a [str], after CPython's
    [PyLong_FromUnicodeObject] and [PyLong_FromString], for a base between
    2 and 36. *)

(** C [Py_ISSPACE]: the ASCII blanks the number parser skips. *)
Definition Py_ISSPACE (c : N) : bool := ((9 <=? c) && (c <=? 13) || (c =? 32))%N.

(** [_PyLong_DigitValue]: 37 marks a character that is no digit. *)
Definition digit_value (c : N) : N :=
  (if (48 <=? c) && (c <=? 57) then c - 48
   else if (97 <=? c) && (c <=? 122) then c - 87
   else if (65 <=? c) && (c <=? 90) then c - 55
   else 37)%N.

(** The digit loop: digits below [base], single underscores between them.
    Returns the value read, the number of characters consumed and the
    unread rest; [None] on a doubled or trailing underscore. *)
Fixpoint scan_digits (base : N) (s : str) (prev_underscore : bool)
    (acc : Z) (consumed : nat) : option (Z * nat * str) :=
  match s with
  | c :: rest =>
      if (c =? 95)%N then
        if prev_underscore then None
        else scan_digits base rest true acc (S consumed)
      else if (digit_value c <? base)%N then
        scan_digits base rest false
          (acc * Z.of_N base + Z.of_N (digit_value c)) (S consumed)
      else if prev_underscore then None else Some (acc, consumed, s)
  | [] => if prev_underscore then None else Some (acc, consumed, s)
  end.

Definition PyLong_FromString (buffer : str) (base : N) : option Z :=
  let s := lstrip_of Py_ISSPACE buffer in
  let '(sign, s) :=
    match s with
    | 43%N :: r => (1, r)
    | 45%N :: r => (-1, r)
    | _ => (1, s)
    end in
  let s :=
    match s with
    | 48%N :: x :: r =>
        if ((base =? 16) && ((x =? 120) || (x =? 88))
            || (base =? 8) && ((x =? 111) || (x =? 79))
            || (base =? 2) && ((x =? 98) || (x =? 66)))%N
        then match r with 95%N :: r' => r' | _ => r end
        else s
    | _ => s
    end in
  match s with
  | 95%N :: _ => None
  | _ =>
      match scan_digits base s false 0 0 with
      | None => None
      | Some (_, O, _) => None
      | Some (v, _, rest) =>
          match lstrip_of Py_ISSPACE rest with
          | [] => Some (sign * v)
          | _ => None
          end
      end
  end.

Section Hex.
(** [Py_UNICODE_TODECIMAL] on the code points from 127 up: the decimal
    value of a Unicode decimal digit, from the Unicode character database;
    [repr] renders a string in an error message. *)
Variable TODECIMAL : N -> option N.
Variable repr : str -> str.

(** [_PyUnicode_TransformDecimalAndSpaceToASCII] *)
Fixpoint transform_decimal_and_space (s : str) : str :=
  match s with
  | [] => []
  | ch :: rest =>
      if (ch <? 127)%N then ch :: transform_decimal_and_space rest
      else if isspace ch then 32%N :: transform_decimal_and_space rest
      else match TODECIMAL ch with
           | Some d => (48 + d)%N :: transform_decimal_and_space rest
           | None => [63%N]
           end
  end.

(** [int(text, 16)] *)
Definition int16 (text : str) : result Z :=
  match PyLong_FromString (transform_decimal_and_space text) 16 with
  | Some v => Ok v
  | None =>
      Raise (ValueError (py "invalid literal for int() with base 16: " ++ repr text))
  end.

Definition hex_to_rgb (hex_color : str) : result (Z * Z * Z) :=
  let value := lstrip_of (fun c => (c =? 35)%N) (strip hex_color) in
  if negb (len value =? 6) then
    Raise (ValueError (py "Expected #RRGGBB, got: " ++ hex_color))
  else
    let* r := int16 (slice 0 2 value) in
    let* g := int16 (slice 2 4 value) in
    let* b := int16 (slice 4 6 value) in
    Ok (r, g, b).

(** An ASCII hexadecimal digit. *)
Definition is_hex_digit (c : N) : bool :=
  ((48 <=? c) && (c <=? 57) || (65 <=? c) && (c <=? 70)
   || (97 <=? c) && (c <=? 102))%N.

Lemma is_hex_digit_cases c : is_hex_digit c = true ->
  In c [48; 49; 50; 51; 52; 53; 54; 55; 56; 57; 65; 66; 67; 68; 69; 70;
        97; 98; 99; 100; 101; 102]%N.
Proof.
  unfold is_hex_digit. rewrite !orb_true_iff, !andb_true_iff, !N.leb_le.
  intros H. simpl. lia.
Qed.

Lemma int16_two_hex_digits a b :
  is_hex_digit a = true -> is_hex_digit b = true ->
  int16 [a; b] = Ok (16 * Z.of_N (digit_value a) + Z.of_N (digit_value b)) /\
  0 <= 16 * Z.of_N (digit_value a) + Z.of_N (digit_value b) <= 255.
Proof.
  intros Ha Hb.
  apply is_hex_digit_cases in Ha. apply is_hex_digit_cases in Hb.
  simpl in Ha, Hb.
  repeat (destruct Ha as [<- | Ha]; [| try contradiction]);
  repeat (destruct Hb as [<- | Hb]; [| try contradiction]);
  (split; [vm_compute; reflexivity | vm_compute; split; discriminate]).
Qed.

(** The direction of C9 that holds: six hexadecimal digits after the
    strip are accepted and every component lies in 0..255. *)
Lemma hex_to_rgb_six_hex_digits (hex_color : str) :
  let value := lstrip_of (fun c => (c =? 35)%N) (strip hex_color) in
  length value = 6%nat -> forallb is_hex_digit value = true ->
  exists r g b, hex_to_rgb hex_color = Ok (r, g, b) /\
    0 <= r <= 255 /\ 0 <= g <= 255 /\ 0 <= b <= 255.
Proof.
  intros value Hlen Hhex. unfold hex_to_rgb. fold value.
  destruct value as [|c1 [|c2 [|c3 [|c4 [|c5 [|c6 [|c7 rest]]]]]]];
    try discriminate.
  simpl in Hhex. rewrite !andb_true_iff in Hhex.
  destruct Hhex as (H1 & H2 & H3 & H4 & H5 & H6 & _).
  destruct (int16_two_hex_digits c1 c2 H1 H2) as [E1 R1].
  destruct (int16_two_hex_digits c3 c4 H3 H4) as [E2 R2].
  destruct (int16_two_hex_digits c5 c6 H5 H6) as [E3 R3].
  change (slice 0 2 [c1; c2; c3; c4; c5; c6]) with [c1; c2].
  change (slice 2 4 [c1; c2; c3; c4; c5; c6]) with [c3; c4].
  change (slice 4 6 [c1; c2; c3; c4; c5; c6]) with [c5; c6].
  change (negb (len [c1; c2; c3; c4; c5; c6] =? 6)) with false. cbv iota.
  rewrite E1, E2, E3. simpl bind. eauto 10.
Qed.

(** C3 (amended): [hex_to_rgb("#1D4ED8")] is (29, 78, 216), the same
    without the hash, and ["#ABC"] raises a [ValueError]. *)
Theorem hex_to_rgb_examples :
  hex_to_rgb (py "#1D4ED8") = Ok (29, 78, 216) /\
  hex_to_rgb (py "1D4ED8") = Ok (29, 78, 216) /\
  hex_to_rgb (py "#ABC") = Raise (ValueError (py "Expected #RRGGBB, got: #ABC")).
Proof. repeat split; vm_compute; reflexivity. Qed.

(** C9 fails on the code: six characters that are not six hexadecimal
    digits are accepted when each pair is a signed or blank-padded digit,
    and a component can be negative. *)
Theorem hex_to_rgb_signed_pairs :
  hex_to_rgb (py "#-1-2-3") = Ok (-1, -2, -3) /\
  hex_to_rgb (py "+A+B+C") = Ok (10, 11, 12) /\
  hex_to_rgb (py "# 1 2 3") = Ok (1, 2, 3).
Proof. repeat split; vm_compute; reflexivity. Qed.
(** X5: Six hexadecimal digits, in either case, behind any surrounding
    white space and any number of leading hashes, decode pair by pair to
    [16 * high + low]. *)
Theorem hex_to_rgb_decodes (hex_color : str) (c1 c2 c3 c4 c5 c6 : N) :
  lstrip_of (fun c => (c =? 35)%N) (strip hex_color) = [c1; c2; c3; c4; c5; c6] ->
  forallb is_hex_digit [c1; c2; c3; c4; c5; c6] = true ->
  hex_to_rgb hex_color =
  Ok (16 * Z.of_N (digit_value c1) + Z.of_N (digit_value c2),
      16 * Z.of_N (digit_value c3) + Z.of_N (digit_value c4),
      16 * Z.of_N (digit_value c5) + Z.of_N (digit_value c6)).
Proof.
  intros Hvalue Hhex. unfold hex_to_rgb. rewrite Hvalue.
  simpl in Hhex. rewrite !andb_true_iff in Hhex.
  destruct Hhex as (H1 & H2 & H3 & H4 & H5 & H6 & _).
  destruct (int16_two_hex_digits c1 c2 H1 H2) as [E1 _].
  destruct (int16_two_hex_digits c3 c4 H3 H4) as [E2 _].
  destruct (int16_two_hex_digits c5 c6 H5 H6) as [E3 _].
  change (slice 0 2 [c1; c2; c3; c4; c5; c6]) with [c1; c2].
  change (slice 2 4 [c1; c2; c3; c4; c5; c6]) with [c3; c4].
  change (slice 4 6 [c1; c2; c3; c4; c5; c6]) with [c5; c6].
  change (negb (len [c1; c2; c3; c4; c5; c6] =? 6)) with false. cbv iota.
  rewrite E1, E2, E3. reflexivity.
Qed.
End Hex.

Lemma hex_to_rgb_decodes_witness :
  hex_to_rgb (fun _ => None) (fun s => s) (py "  ##14b8A6 ") = Ok (20, 184, 166).
Proof.
  apply (hex_to_rgb_decodes (fun _ => None) (fun s => s) (py "  ##14b8A6 ")
           49 52 98 56 65 54)%N; reflexivity.
Defined.

(** C3 as stated fails: the green component of #1D4ED8 is 0x4E = 78,
    not 76. *)
Lemma hex_to_rgb_brand_blue_green_component :
  hex_to_rgb (fun _ => None) (fun s => s) (py "#1D4ED8") <> Ok (29, 76, 216).
Proof. vm_compute. discriminate. Qed.

(** ** Output formats *)

(** The three formats and the size of their canvas. *)
Definition SIZES : list (string * (Z * Z)) :=
  [("square"%string, (1080, 1080)); ("story"%string, (1080, 1920));
   ("og"%string, (1200, 630))].

(** ** Raster images and the card with its shadow *)

(** A PIL image of pixel type [P]: its size and its pixels.  Pixels are
    addressed by column and row; only those inside the size are stored. *)
Record Image (P : Type) : Type := mkImage {
  size : Z * Z;
  getpixel : Z -> Z -> P
}.
Arguments mkImage {P} size getpixel.
Arguments size {P} i.
Arguments getpixel {P} i x y.

(** Mode "L" pixels and mode "RGBA" pixels. *)
Abbreviation gray := Z.
Abbreviation rgba := (Z * Z * Z * Z)%type.

(** [Image.new(mode, size, color)] *)
Definition Image_new {P} (sz : Z * Z) (color : P) : result (Image P) :=
  let '(w, h) := sz in
  if (w <? 0) || (h <? 0)
  then Raise (ValueError (py "Width and height must be >= 0"))
  else Ok (mkImage sz (fun _ _ => color)).

(** [image.putalpha(mask)] for a mask of the image's size. *)
Definition putalpha (image : Image rgba) (mask : Image gray) : Image rgba :=
  mkImage (size image)
    (fun i j => let '(r, g, b, _) := getpixel image i j in (r, g, b, getpixel mask i j)).

(** A drawing routine that mutates the one canvas it is given: the canvas
    goes in and comes out, next to the value returned or the exception. *)
Definition Paint (A : Type) : Type := Image rgba -> Image rgba * result A.

Definition paint_ret {A} (a : A) : Paint A := fun base => (base, Ok a).

Definition paint_bind {A B} (m : Paint A) (k : A -> Paint B) : Paint B :=
  fun base =>
    match m base with
    | (base', Ok a) => k a base'
    | (base', Raise e) => (base', Raise e)
    end.

(** A call that does not touch the canvas. *)
Definition paint_lift {A} (r : result A) : Paint A := fun base => (base, r).

Notation "'let!' x ':=' m 'in' k" := (paint_bind m (fun x => k))
  (at level 10, x name, m at level 100, k at level 200).

Section Card.
(** Rasterisation is Pillow's: the pixels after
    [ImageDraw.rounded_rectangle(xy, radius, fill, outline, width)] on a
    canvas of a given size, the pixels after
    [filter(ImageFilter.GaussianBlur(radius))], and the "over" blend of
    one destination pixel with one source pixel.  The calls are modelled
    where Pillow accepts them; that it raises on a negative radius, on
    coordinates beyond a C int and on a size it cannot allocate is not
    modelled, and what is proved to return below is stated for cards on
    the tool's canvases. *)
Variable rounded_rectangle_pixels :
  forall P : Type, Z * Z -> Z * Z * Z * Z -> Z -> option P -> option P -> Z ->
    (Z -> Z -> P) -> Z -> Z -> P.
Variable gaussian_blur_pixels : Z -> Z * Z -> (Z -> Z -> rgba) -> Z -> Z -> rgba.
Variable blend_over : rgba -> rgba -> rgba.
(** Pillow releases differ on a destination with a negative coordinate:
    the older ones raise, the newer ones clip. *)
Variable allow_negative_dest : bool.

Definition rounded_rectangle {P} (image : Image P) (xy : Z * Z * Z * Z)
    (radius : Z) (fill outline : option P) (width : Z) : Image P :=
  mkImage (size image)
    (rounded_rectangle_pixels P (size image) xy radius fill outline width
       (getpixel image)).

Definition GaussianBlur (radius : Z) (image : Image rgba) : Image rgba :=
  mkImage (size image) (gaussian_blur_pixels radius (size image) (getpixel image)).

(** The pixels [base.alpha_composite(im, dest)] writes: those of the box
    [dest .. dest + im.size] that lie on the canvas. *)
Definition in_paste_box (base im : Image rgba) (dest : Z * Z) (i j : Z) : bool :=
  let '(dx, dy) := dest in
  let '(bw, bh) := size base in
  let '(w, h) := size im in
  (dx <=? i) && (i <? dx + w) && (dy <=? j) && (j <? dy + h)
  && (0 <=? i) && (i <? bw) && (0 <=? j) && (j <? bh).

(** [base.alpha_composite(im, dest)], in place. *)
Definition alpha_composite (im : Image rgba) (dest : Z * Z) : Paint unit :=
  fun base =>
    let '(dx, dy) := dest in
    if negb allow_negative_dest && (Z.min dx dy <? 0)
    then (base, Raise (ValueError (py "Destination must be non-negative")))
    else
      (mkImage (size base)
         (fun i j =>
            if in_paste_box base im dest i j
            then blend_over (getpixel base i j) (getpixel im (i - dx) (j - dy))
            else getpixel base i j),
       Ok tt).

Definition card_with_shadow (x y w h radius : Z) : Paint (Z * Z * Z * Z) :=
  let! mask := paint_lift (Image_new (w, h) (0 : gray)) in
  let mask := rounded_rectangle mask (0, 0, w, h) radius (Some 255) None 1 in

  let! shadow := paint_lift (Image_new (w, h) ((0, 0, 0, 130) : rgba)) in
  let shadow := putalpha shadow mask in
  let shadow := GaussianBlur 24 shadow in
  let! _ := alpha_composite shadow (x, y + 18) in

  let! card := paint_lift (Image_new (w, h) ((255, 255, 255, 0) : rgba)) in
  let card :=
    rounded_rectangle card (0, 0, w, h) radius
      (Some (255, 255, 255, 40)) (Some (255, 255, 255, 90)) 2 in
  let! _ := alpha_composite card (x, y) in
  paint_ret (x, y, x + w, y + h).

(** *** What one composite leaves alone *)

Lemma alpha_composite_size im dest base :
  size (fst (alpha_composite im dest base)) = size base.
Proof.
  unfold alpha_composite. destruct dest as [dx dy].
  destruct (negb allow_negative_dest && (Z.min dx dy <? 0)); reflexivity.
Qed.

Lemma alpha_composite_outside im dx dy base i j :
  ~ (dx <= i < dx + fst (size im) /\ dy <= j < dy + snd (size im)) ->
  getpixel (fst (alpha_composite im (dx, dy) base)) i j = getpixel base i j.
Proof.
  intros Hout. unfold alpha_composite.
  destruct (negb allow_negative_dest && (Z.min dx dy <? 0)); [reflexivity|].
  simpl. unfold in_paste_box.
  destruct (size base) as [bw bh]. destruct (size im) as [w h]. simpl in Hout.
  destruct (dx <=? i) eqn:E1; [|reflexivity].
  destruct (i <? dx + w) eqn:E2; [|reflexivity].
  destruct (dy <=? j) eqn:E3; [|reflexivity].
  destruct (j <? dy + h) eqn:E4; [|reflexivity].
  exfalso. apply Hout. lia.
Qed.

Lemma alpha_composite_returns im dx dy base :
  allow_negative_dest = true \/ (0 <= dx /\ 0 <= dy) ->
  snd (alpha_composite im (dx, dy) base) = Ok tt.
Proof.
  intros H. unfold alpha_composite.
  destruct (negb allow_negative_dest && (Z.min dx dy <? 0)) eqn:E; [|reflexivity].
  exfalso. apply andb_true_iff in E. destruct E as [E1 E2].
  apply Z.ltb_lt in E2. destruct H as [H | H].
  - rewrite H in E1. discriminate.
  - lia.
Qed.

(** The region the card and its shadow may touch: the card rectangle and
    the same rectangle 18 pixels lower. *)
Definition card_region (x y w h i j : Z) : Prop :=
  x <= i <= x + w /\ (y <= j <= y + h \/ y + 18 <= j <= y + h + 18).

(** C10: whatever the outcome of the call, the canvas keeps its size and
    every pixel outside the card rectangle and the shadow rectangle. *)
Theorem card_with_shadow_frame (base : Image rgba) (x y w h radius i j : Z) :
  ~ card_region x y w h i j ->
  size (fst (card_with_shadow x y w h radius base)) = size base /\
  getpixel (fst (card_with_shadow x y w h radius base)) i j = getpixel base i j.
Proof.
  intros Hout. unfold card_region in Hout.
  unfold card_with_shadow, paint_bind, paint_lift, paint_ret, Image_new.
  destruct ((w <? 0) || (h <? 0)) eqn:Hneg; [split; reflexivity|].
  set (shadow := GaussianBlur 24 _).
  pose proof (alpha_composite_size shadow (x, y + 18) base) as Hs1.
  pose proof (alpha_composite_outside shadow x (y + 18) base i j) as Hp1.
  destruct (alpha_composite shadow (x, y + 18) base) as [base1 r1].
  simpl in Hs1, Hp1.
  assert (Hp1' : getpixel base1 i j = getpixel base i j) by (apply Hp1; lia).
  destruct r1 as [[]|e]; [|split; assumption].
  set (card := rounded_rectangle _ _ _ _ _ _).
  pose proof (alpha_composite_size card (x, y) base1) as Hs2.
  pose proof (alpha_composite_outside card x y base1 i j) as Hp2.
  destruct (alpha_composite card (x, y) base1) as [base2 r2].
  simpl in Hs2, Hp2.
  assert (Hp2' : getpixel base2 i j = getpixel base1 i j) by (apply Hp2; lia).
  destruct r2 as [[]|e]; simpl; split; congruence.
Qed.

Lemma card_with_shadow_negative_size (base : Image rgba) (x y w h radius : Z) :
  w < 0 \/ h < 0 ->
  card_with_shadow x y w h radius base =
  (base, Raise (ValueError (py "Width and height must be >= 0"))).
Proof.
  intros H. unfold card_with_shadow, paint_bind, paint_lift, Image_new.
  replace ((w <? 0) || (h <? 0)) with true; [reflexivity|].
  symmetry. apply orb_true_iff. rewrite !Z.ltb_lt. exact H.
Qed.

(** C6 (amended): a box the call returns is (x, y, x + w, y + h); and
    on each of the tool's canvases the call does return, for every card
    of positive width and height that lies with its shadow on the canvas
    and every non-negative radius.  (Outside that range Pillow raises:
    on a negative side, on a negative radius, on a destination beyond a
    C int.) *)
Theorem card_with_shadow_bbox (base : Image rgba) (x y w h radius : Z) :
  (forall bbox, snd (card_with_shadow x y w h radius base) = Ok bbox ->
     bbox = (x, y, x + w, y + h)) /\
  (In (size base) (map snd SIZES) ->
   0 <= radius -> 0 < w -> 0 < h -> 0 <= x -> 0 <= y ->
   x + w <= fst (size base) -> y + h + 18 <= snd (size base) ->
     snd (card_with_shadow x y w h radius base) = Ok (x, y, x + w, y + h)).
Proof.
  unfold card_with_shadow, paint_bind, paint_lift, paint_ret, Image_new.
  destruct ((w <? 0) || (h <? 0)) eqn:Hneg.
  { split; [simpl; discriminate|].
    intros _ _ Hw Hh. apply orb_true_iff in Hneg. rewrite !Z.ltb_lt in Hneg. lia. }
  set (shadow := GaussianBlur 24 _).
  pose proof (alpha_composite_returns shadow x (y + 18) base) as Hr1.
  destruct (alpha_composite shadow (x, y + 18) base) as [base1 r1].
  simpl in Hr1.
  set (card := rounded_rectangle _ _ _ _ _ _).
  pose proof (alpha_composite_returns card x y base1) as Hr2.
  destruct (alpha_composite card (x, y) base1) as [base2 r2].
  simpl in Hr2. split.
  - intros bbox. destruct r1 as [[]|e]; [|simpl; discriminate].
    destruct r2 as [[]|e]; simpl; [congruence | discriminate].
  - intros _ _ _ _ Hx Hy _ _.
    rewrite Hr1 by (right; lia).
    rewrite Hr2 by (right; lia). reflexivity.
Qed.
End Card.

(** A toy rasteriser for the examples: a rounded rectangle floods the
    canvas with its fill, the blur is the identity, and blending keeps the
    source pixel. *)
Definition flood_rectangle (P : Type) (_ : Z * Z) (_ : Z * Z * Z * Z) (_ : Z)
    (fill _ : option P) (_ : Z) (pixels : Z -> Z -> P) (i j : Z) : P :=
  match fill with Some c => c | None => pixels i j end.

Definition blue_canvas : Image rgba := mkImage (1080, 1080) (fun _ _ => (29, 78, 216, 255)).

Definition toy_card (allow : bool) (x y w h : Z) : Image rgba * result (Z * Z * Z * Z) :=
  card_with_shadow flood_rectangle (fun _ _ pixels => pixels) (fun _ src => src)
    allow x y w h 50 blue_canvas.

(** The square layout's card: a pixel of the card, a pixel of the shadow
    below it, the first row under the shadow, and a rejected destination. *)
Example toy_card_pixels :
  getpixel (fst (toy_card true 590 220 420 640)) 600 230 = (255, 255, 255, 40) /\
  getpixel (fst (toy_card true 590 220 420 640)) 600 870 = (0, 0, 0, 255) /\
  getpixel (fst (toy_card true 590 220 420 640)) 600 878 = (29, 78, 216, 255) /\
  snd (toy_card false (-5) 220 420 640) =
    Raise (ValueError (py "Destination must be non-negative")).
Proof. repeat split; vm_compute; reflexivity. Qed.

Lemma card_with_shadow_frame_witness :
  size (fst (toy_card true 590 220 420 640)) = (1080, 1080) /\
  getpixel (fst (toy_card true 590 220 420 640)) 589 230 = (29, 78, 216, 255).
Proof.
  apply (card_with_shadow_frame flood_rectangle (fun _ _ pixels => pixels)
           (fun _ src => src) true blue_canvas 590 220 420 640 50 589 230).
  unfold card_region. lia.
Defined.

Lemma card_with_shadow_bbox_witness :
  snd (toy_card false 590 220 420 640) = Ok (590, 220, 1010, 860).
Proof.
  apply (card_with_shadow_bbox flood_rectangle (fun _ _ pixels => pixels)
           (fun _ src => src) false blue_canvas 590 220 420 640 50);
    [left; reflexivity | simpl; lia ..].
Defined.

(** C6 as stated fails: a rectangle of negative width is refused by
    [Image.new], and no box is returned. *)
Lemma card_with_shadow_negative_width :
  snd (toy_card true 590 220 (-420) 640) =
  Raise (ValueError (py "Width and height must be >= 0")).
Proof. vm_compute. reflexivity. Qed.

(** ** Image fitter *)

(** *** Python's float arithmetic *)

(** A Python float (IEEE 754 binary64) that is finite: the pair [(m, e)]
    stands for [m * 2^e].  Rounded results are normalised (a mantissa of 53
    bits, or zero) and keep an unbounded exponent: an exponent above 971 is
    a value past the largest double, which Python reports as an
    [OverflowError] or holds as an infinity.  Subnormal results are not
    modelled; [contain] cannot produce one from an image whose sides are
    below 2^31. *)
Definition pyfloat : Type := (Z * Z)%type.

(** The rational a float denotes. *)
Definition F2Q (x : pyfloat) : Q := inject_Z (fst x) * 2 ^ snd x.

(** The exponent [e] with [2^52 <= (n / d) / 2^e < 2^53], for positive
    [n] and [d]. *)
Definition exponent_of (n d : Z) : Z :=
  let k := Z.log2 n - Z.log2 d in
  if n * 2 ^ Z.max 0 (- k) <? d * 2 ^ Z.max 0 k then k - 53 else k - 52.

(** [num / den] rounded to the nearest integer, ties to the even one. *)
Definition nearest_even (num den : Z) : Z :=
  let m0 := num / den in
  let r := num mod den in
  if 2 * r <? den then m0
  else if den <? 2 * r then m0 + 1
  else if Z.even m0 then m0 else m0 + 1.

(** The double nearest to [n / d], for positive [n] and [d]. *)
Definition round_pos (n d : Z) : pyfloat :=
  let e := exponent_of n d in
  let m := nearest_even (n * 2 ^ Z.max 0 (- e)) (d * 2 ^ Z.max 0 e) in
  if m =? 2 ^ 53 then (2 ^ 52, e + 1) else (m, e).

(** The double nearest to [n / d] for any [n] and positive [d]. *)
Definition round_ratio (n d : Z) : pyfloat :=
  if n =? 0 then (0, 0)
  else let '(m, e) := round_pos (Z.abs n) d in (Z.sgn n * m, e).

(** A rounded value beyond the largest finite double (an infinity). *)
Definition overflows (x : pyfloat) : bool := 971 <? snd x.

(** [a / b] on ints *)
Definition true_div (a b : Z) : result pyfloat :=
  if b =? 0 then Raise ZeroDivisionError
  else
    let x := round_ratio (a * Z.sgn b) (Z.abs b) in
    if overflows x then Raise OverflowError else Ok x.

(** [float(a)] *)
Definition float_of_int (a : Z) : result pyfloat :=
  let x := round_ratio a 1 in
  if overflows x then Raise OverflowError else Ok x.

(** [x * y] on floats *)
Definition float_mul (x y : pyfloat) : pyfloat :=
  let n := fst x * fst y in
  let e := snd x + snd y in
  if 0 <=? e then round_ratio (n * 2 ^ e) 1 else round_ratio n (2 ^ (- e)).

(** [x < y] on floats *)
Definition float_lt (x y : pyfloat) : bool :=
  let k := Z.min (snd x) (snd y) in
  fst x * 2 ^ (snd x - k) <? fst y * 2 ^ (snd y - k).

(** [min(x, y)] *)
Definition float_min (x y : pyfloat) : pyfloat := if float_lt y x then y else x.

(** [int(x)] *)
Definition int_of_float (x : pyfloat) : result Z :=
  if overflows x then Raise OverflowError
  else Ok (if 0 <=? snd x then fst x * 2 ^ snd x else Z.quot (fst x) (2 ^ (- snd x))).

(** [max(a, b)] on ints *)
Definition int_max (a b : Z) : Z := if a <? b then b else a.

(** *** Facts about the rounding *)

Lemma Qpow2_pos e : (0 < 2 ^ e)%Q.
Proof. apply Qpower_0_lt. reflexivity. Qed.

Lemma pow2_split e :
  (inject_Z (2 ^ Z.max 0 e) == 2 ^ e * inject_Z (2 ^ Z.max 0 (- e)))%Q.
Proof.
  rewrite !Zpower_Qpower by lia.
  change (inject_Z 2) with 2%Q.
  rewrite <- Qpower_plus by discriminate.
  replace (e + Z.max 0 (- e)) with (Z.max 0 e) by lia. reflexivity.
Qed.

Lemma Zpow2_pos e : 0 < 2 ^ Z.max 0 e.
Proof. apply Z.pow_pos_nonneg; lia. Qed.

(** The exponent chosen brackets the quotient. *)
Lemma exponent_of_spec n d :
  0 < n -> 0 < d ->
  (2 ^ exponent_of n d * inject_Z d * 2 ^ 52 <= inject_Z n /\
   inject_Z n < 2 ^ exponent_of n d * inject_Z d * 2 ^ 53)%Q.
Proof.
  intros Hn Hd. unfold exponent_of. set (k := Z.log2 n - Z.log2 d).
  pose proof (Z.log2_spec n Hn) as [Hn1 Hn2].
  pose proof (Z.log2_spec d Hd) as [Hd1 Hd2].
  pose proof (Z.log2_nonneg n) as Hln. pose proof (Z.log2_nonneg d) as Hld.
  rewrite Z.pow_succ_r in Hn2, Hd2 by assumption.
  rewrite Zle_Qle in Hn1, Hd1. rewrite Zlt_Qlt in Hn2, Hd2.
  rewrite inject_Z_mult in Hn2, Hd2.
  rewrite !Zpower_Qpower in Hn1, Hn2, Hd1, Hd2 by assumption.
  change (inject_Z 2) with 2%Q in *.
  assert (HK : (2 ^ Z.log2 n == 2 ^ k * 2 ^ Z.log2 d)%Q).
  { rewrite <- Qpower_plus by discriminate. unfold k.
    replace (Z.log2 n - Z.log2 d + Z.log2 d) with (Z.log2 n) by lia. reflexivity. }
  pose proof (Qpow2_pos k) as HKpos.
  pose proof (Qpow2_pos (Z.log2 d)) as Hbpos.
  set (a := (2 ^ Z.log2 n)%Q) in *. set (b := (2 ^ Z.log2 d)%Q) in *.
  set (K := (2 ^ k)%Q) in *.
  set (qn := inject_Z n) in *. set (qd := inject_Z d) in *.
  assert (Hcmp : n * 2 ^ Z.max 0 (- k) < d * 2 ^ Z.max 0 k <-> (qn < K * qd)%Q).
  { rewrite Zlt_Qlt, !inject_Z_mult.
    rewrite (pow2_split k). fold K. fold qn qd.
    pose proof (Zpow2_pos (- k)) as HN. rewrite Zlt_Qlt in HN.
    change (inject_Z 0) with 0%Q in HN.
    set (N := inject_Z (2 ^ Z.max 0 (- k))) in *.
    assert (Hr : (qd * (K * N) == (K * qd) * N)%Q) by ring. rewrite Hr.
    apply Qmult_lt_r. exact HN. }
  destruct (Z.ltb_spec (n * 2 ^ Z.max 0 (- k)) (d * 2 ^ Z.max 0 k)) as [E|E].
  - apply Hcmp in E.
    assert (HE : (2 ^ (k - 53) * 2 ^ 53 == K)%Q).
    { rewrite <- Qpower_plus by discriminate. replace (k - 53 + 53) with k by lia. reflexivity. }
    pose proof (Qpow2_pos (k - 53)) as HEpos.
    set (E' := (2 ^ (k - 53))%Q) in *.
    change (2 ^ 53)%Q with (9007199254740992%Q) in *.
    change (2 ^ 52)%Q with (4503599627370496%Q) in *.
    split; nra.
  - assert (E2 : ~ (qn < K * qd)%Q) by (intros H; apply Hcmp in H; lia).
    assert (HE : (2 ^ (k - 52) * 2 ^ 52 == K)%Q).
    { rewrite <- Qpower_plus by discriminate. replace (k - 52 + 52) with k by lia. reflexivity. }
    pose proof (Qpow2_pos (k - 52)) as HEpos.
    set (E' := (2 ^ (k - 52))%Q) in *.
    change (2 ^ 53)%Q with (9007199254740992%Q) in *.
    change (2 ^ 52)%Q with (4503599627370496%Q) in *.
    split; nra.
Qed.

(** The unit roundoff of binary64, 2^-53. *)
Definition eps : Q := 1 # 9007199254740992.

Lemma nearest_even_spec num den :
  0 < den ->
  2 * num <= 2 * (nearest_even num den * den) + den /\
  2 * (nearest_even num den * den) <= 2 * num + den /\
  num / den <= nearest_even num den <= num / den + 1.
Proof.
  intros Hden. unfold nearest_even.
  pose proof (Z.div_mod num den ltac:(lia)) as Hdiv.
  pose proof (Z.mod_pos_bound num den Hden) as Hr.
  set (m0 := num / den) in *. set (r := num mod den) in *.
  destruct (Z.ltb_spec (2 * r) den); [nia|].
  destruct (Z.ltb_spec den (2 * r)); [nia|].
  destruct (Z.even m0); nia.
Qed.

Lemma nearest_even_unit num : nearest_even num 1 = num.
Proof.
  unfold nearest_even. rewrite Z.div_1_r, Z.mod_1_r. reflexivity.
Qed.

(** What [round_pos] computes before the mantissa is renormalised. *)
Lemma round_pos_near n d :
  0 < n -> 0 < d ->
  let e := exponent_of n d in
  let m := nearest_even (n * 2 ^ Z.max 0 (- e)) (d * 2 ^ Z.max 0 e) in
  2 ^ 52 <= m <= 2 ^ 53 /\
  (2 * inject_Z n <= 2 * (inject_Z m * 2 ^ e * inject_Z d) + 2 ^ e * inject_Z d /\
   2 * (inject_Z m * 2 ^ e * inject_Z d) <= 2 * inject_Z n + 2 ^ e * inject_Z d)%Q.
Proof.
  intros Hn Hd e m. pose proof (exponent_of_spec n d Hn Hd) as [Hlo Hhi].
  fold e in Hlo, Hhi.
  pose proof (Zpow2_pos e) as HP. pose proof (Zpow2_pos (- e)) as HN.
  set (num := n * 2 ^ Z.max 0 (- e)) in *. set (den := d * 2 ^ Z.max 0 e) in *.
  assert (Hden : 0 < den) by (unfold den; lia).
  destruct (nearest_even_spec num den Hden) as (Hn1 & Hn2 & Hm). fold m in Hn1, Hn2, Hm.
  pose proof (pow2_split e) as Hsplit.
  pose proof (Qpow2_pos e) as HEpos.
  assert (HNq : (0 < inject_Z (2 ^ Z.max 0 (- e)))%Q).
  { rewrite Zlt_Qlt in HN. exact HN. }
  assert (Hnumq : inject_Z num = (inject_Z n * inject_Z (2 ^ Z.max 0 (- e)))%Q).
  { unfold num. apply inject_Z_mult. }
  assert (Hdenq : (inject_Z den == inject_Z d * (2 ^ e * inject_Z (2 ^ Z.max 0 (- e))))%Q).
  { unfold den. rewrite inject_Z_mult, Hsplit. reflexivity. }
  assert (Hdq : (0 < inject_Z d)%Q) by (rewrite Zlt_Qlt in Hd; exact Hd).
  assert (Hnq : (0 < inject_Z n)%Q) by (rewrite Zlt_Qlt in Hn; exact Hn).
  split.
  - assert (H1 : den * 2 ^ 52 <= num).
    { rewrite Zle_Qle, inject_Z_mult, Hnumq, Hdenq.
      change (inject_Z (2 ^ 52)) with (2 ^ 52)%Q.
      set (E := (2 ^ e)%Q) in *. set (Nq := inject_Z (2 ^ Z.max 0 (- e))) in *.
      set (qn := inject_Z n) in *. set (qd := inject_Z d) in *.
      change (2 ^ 52)%Q with (4503599627370496%Q) in *. nra. }
    assert (H2 : num < den * 2 ^ 53).
    { rewrite Zlt_Qlt, inject_Z_mult, Hnumq, Hdenq.
      change (inject_Z (2 ^ 53)) with (2 ^ 53)%Q.
      set (E := (2 ^ e)%Q) in *. set (Nq := inject_Z (2 ^ Z.max 0 (- e))) in *.
      set (qn := inject_Z n) in *. set (qd := inject_Z d) in *.
      change (2 ^ 53)%Q with (9007199254740992%Q) in *. nra. }
    assert (2 ^ 52 <= num / den) by (apply Z.div_le_lower_bound; lia).
    assert (num / den < 2 ^ 53) by (apply Z.div_lt_upper_bound; lia).
    lia.
  - rewrite Zle_Qle in Hn1, Hn2.
    rewrite ?inject_Z_plus, ?inject_Z_mult in Hn1, Hn2.
    rewrite Hnumq, Hdenq in Hn1, Hn2.
    change (inject_Z 2) with 2%Q in *.
    set (E := (2 ^ e)%Q) in *. set (Nq := inject_Z (2 ^ Z.max 0 (- e))) in *.
    set (qn := inject_Z n) in *. set (qd := inject_Z d) in *.
    set (qm := inject_Z m) in *.
    split; apply (Qmult_lt_0_le_reg_r _ _ Nq HNq); nra.
Qed.

Lemma renormalise e :
  (inject_Z (2 ^ 52) * 2 ^ (e + 1) == inject_Z (2 ^ 53) * 2 ^ e)%Q.
Proof.
  rewrite Qpower_plus by discriminate.
  change (inject_Z (2 ^ 52)) with (2 ^ 52)%Q.
  change (inject_Z (2 ^ 53)) with (2 ^ 52 * 2 ^ 1)%Q. ring.
Qed.

Lemma round_pos_error n d :
  0 < n -> 0 < d ->
  2 ^ 52 <= fst (round_pos n d) < 2 ^ 53 /\
  (inject_Z n * (1 - eps) <= F2Q (round_pos n d) * inject_Z d /\
   F2Q (round_pos n d) * inject_Z d <= inject_Z n * (1 + eps))%Q.
Proof.
  intros Hn Hd. pose proof (round_pos_near n d Hn Hd) as Hnear.
  pose proof (exponent_of_spec n d Hn Hd) as [Hlo Hhi].
  unfold round_pos. cbv zeta in Hnear.
  set (e := exponent_of n d) in *.
  set (m := nearest_even (n * 2 ^ Z.max 0 (- e)) (d * 2 ^ Z.max 0 e)) in *.
  destruct Hnear as (Hm & Ha & Hb).
  assert (Herr : (inject_Z n * (1 - eps) <= inject_Z m * 2 ^ e * inject_Z d /\
                  inject_Z m * 2 ^ e * inject_Z d <= inject_Z n * (1 + eps))%Q).
  { unfold eps. pose proof (Qpow2_pos e) as HEpos.
    set (E := (2 ^ e)%Q) in *.
    set (qn := inject_Z n) in *. set (qd := inject_Z d) in *.
    set (qm := inject_Z m) in *.
    change (2 ^ 52)%Q with (4503599627370496%Q) in *.
    split; nra. }
  destruct (Z.eqb_spec m (2 ^ 53)) as [Heq | Hne].
  - simpl fst. split; [lia|]. unfold F2Q. simpl fst. simpl snd.
    rewrite Heq in Herr. rewrite renormalise. exact Herr.
  - simpl fst. split; [lia|]. exact Herr.
Qed.

Lemma round_pos_int_exact n :
  0 < n < 2 ^ 53 -> (F2Q (round_pos n 1) == inject_Z n)%Q.
Proof.
  intros [Hn Hlt]. pose proof (exponent_of_spec n 1 Hn ltac:(lia)) as [Hlo Hhi].
  pose proof (round_pos_near n 1 Hn ltac:(lia)) as Hnear. cbv zeta in Hnear.
  unfold round_pos. set (e := exponent_of n 1) in *.
  assert (He : e <= 0).
  { destruct (Z_le_gt_dec e 0) as [|Hgt]; [assumption|exfalso].
    assert (H2 : (2 ^ 1 <= 2 ^ e)%Q).
    { apply Qpower_le_compat_l; [lia | discriminate]. }
    rewrite Zlt_Qlt in Hlt. change (inject_Z (2 ^ 53)) with (9007199254740992%Q) in Hlt.
    change (2 ^ 52)%Q with (4503599627370496%Q) in Hlo.
    change (2 ^ 1)%Q with 2%Q in H2.
    change (inject_Z 1) with 1%Q in Hlo.
    set (E := (2 ^ e)%Q) in *. set (qn := inject_Z n) in *. nra. }
  replace (Z.max 0 e) with 0 in * by lia.
  replace (Z.max 0 (- e)) with (- e) in * by lia.
  change (1 * 2 ^ 0) with 1 in *. rewrite nearest_even_unit in *.
  destruct Hnear as (Hm & _).
  assert (Hval : (inject_Z (n * 2 ^ (- e)) * 2 ^ e == inject_Z n)%Q).
  { rewrite inject_Z_mult, Zpower_Qpower by lia. change (inject_Z 2) with 2%Q.
    rewrite <- Qmult_assoc, <- Qpower_plus by discriminate.
    replace (- e + e) with 0 by lia. change (2 ^ 0)%Q with 1%Q. ring. }
  destruct (Z.eqb_spec (n * 2 ^ (- e)) (2 ^ 53)) as [Heq | Hne].
  - unfold F2Q. simpl fst. simpl snd. rewrite renormalise, <- Heq. exact Hval.
  - exact Hval.
Qed.

(** *** The Python operations on positive operands *)

Lemma round_ratio_pos n d : 0 < n -> round_ratio n d = round_pos n d.
Proof.
  intros Hn. unfold round_ratio. destruct (Z.eqb_spec n 0); [lia|].
  rewrite Z.abs_eq by lia. destruct (round_pos n d) as [m e].
  rewrite Z.sgn_pos by assumption. rewrite Z.mul_1_l. reflexivity.
Qed.

Lemma round_pos_exponent_bound n d B :
  0 < n -> 0 < d -> (inject_Z n < 2 ^ B * inject_Z d)%Q ->
  snd (round_pos n d) <= B - 52.
Proof.
  intros Hn Hd Hlt. pose proof (exponent_of_spec n d Hn Hd) as [Hlo _].
  assert (Hdq : (0 < inject_Z d)%Q) by (rewrite Zlt_Qlt in Hd; exact Hd).
  assert (He : exponent_of n d + 52 < B).
  { apply (Qpower_lt_compat_l_inv 2); [|reflexivity].
    rewrite Qpower_plus by discriminate.
    set (E := (2 ^ exponent_of n d)%Q) in *. set (qB := (2 ^ B)%Q) in *.
    set (qd := inject_Z d) in *. set (qn := inject_Z n) in *.
    change (2 ^ 52)%Q with (4503599627370496%Q) in *.
    apply (Qmult_lt_r _ _ qd Hdq). nra. }
  unfold round_pos. destruct (_ =? _); simpl; lia.
Qed.

Lemma float_mul_pos x y :
  0 < fst x -> 0 < fst y ->
  2 ^ 52 <= fst (float_mul x y) < 2 ^ 53 /\
  (F2Q x * F2Q y * (1 - eps) <= F2Q (float_mul x y) /\
   F2Q (float_mul x y) <= F2Q x * F2Q y * (1 + eps))%Q /\
  (forall B, (F2Q x * F2Q y < 2 ^ B)%Q -> snd (float_mul x y) <= B - 52).
Proof.
  destruct x as [m1 e1], y as [m2 e2]. simpl fst. intros H1 H2.
  unfold float_mul. simpl fst. simpl snd.
  assert (Hn : 0 < m1 * m2) by nia.
  assert (Hprod : (F2Q (m1, e1) * F2Q (m2, e2) == inject_Z (m1 * m2) * 2 ^ (e1 + e2))%Q).
  { unfold F2Q. simpl. rewrite inject_Z_mult, Qpower_plus by discriminate. ring. }
  rewrite Hprod. set (n := m1 * m2) in *. set (e := e1 + e2) in *.
  destruct (Z.leb_spec 0 e) as [He | He].
  - assert (Hne : 0 < n * 2 ^ e) by (apply Z.mul_pos_pos; [lia | apply Z.pow_pos_nonneg; lia]).
    rewrite round_ratio_pos by assumption.
    destruct (round_pos_error (n * 2 ^ e) 1 Hne ltac:(lia)) as (Hm & Ha & Hb).
    assert (Hq : (inject_Z (n * 2 ^ e) == inject_Z n * 2 ^ e)%Q).
    { rewrite inject_Z_mult, Zpower_Qpower by lia. reflexivity. }
    rewrite Hq in Ha, Hb. change (inject_Z 1) with 1%Q in Ha, Hb.
    rewrite Qmult_1_r in Ha, Hb.
    split; [exact Hm|]. split; [split; assumption|].
    intros B HB. rewrite Hprod in HB.
    apply round_pos_exponent_bound; [assumption | lia |].
    rewrite Hq. change (inject_Z 1) with 1%Q. rewrite Qmult_1_r. exact HB.
  - assert (Hd : 0 < 2 ^ (- e)) by (apply Z.pow_pos_nonneg; lia).
    rewrite round_ratio_pos by assumption.
    destruct (round_pos_error n (2 ^ (- e)) Hn Hd) as (Hm & Ha & Hb).
    assert (Hq : (inject_Z (2 ^ (- e)) * 2 ^ e == 1)%Q).
    { rewrite Zpower_Qpower by lia. change (inject_Z 2) with 2%Q.
      rewrite <- Qpower_plus by discriminate.
      replace (- e + e) with 0 by lia. reflexivity. }
    pose proof (Qpow2_pos e) as HEpos.
    assert (Hdq : (0 < inject_Z (2 ^ (- e)))%Q) by (rewrite Zlt_Qlt in Hd; exact Hd).
    split; [exact Hm|].
    set (X := F2Q (round_pos n (2 ^ (- e)))) in *.
    set (D := inject_Z (2 ^ (- e))) in *. set (E := (2 ^ e)%Q) in *.
    set (qn := inject_Z n) in *.
    split.
    + unfold eps in *. split.
      * assert (H : (qn * E * (1 - (1 # 9007199254740992)) * D <= X * D)%Q) by nra.
        apply (Qmult_lt_0_le_reg_r _ _ D Hdq). exact H.
      * assert (H : (X * D <= qn * E * (1 + (1 # 9007199254740992)) * D)%Q) by nra.
        apply (Qmult_lt_0_le_reg_r _ _ D Hdq). exact H.
    + intros B HB. rewrite Hprod in HB. fold qn E in HB.
      apply round_pos_exponent_bound; [assumption | assumption |].
      fold qn D. set (qB := (2 ^ B)%Q) in *.
      assert (H : (qn * E * D < qB * D)%Q) by (apply Qmult_lt_r; assumption).
      assert (Hc : (qn * E * D == qn)%Q).
      { rewrite <- Qmult_assoc, (Qmult_comm E D), Hq. ring. }
      rewrite Hc in H. exact H.
Qed.

Lemma float_lt_spec x y : float_lt x y = true <-> (F2Q x < F2Q y)%Q.
Proof.
  destruct x as [m1 e1], y as [m2 e2]. unfold float_lt, F2Q. simpl fst. simpl snd.
  set (k := Z.min e1 e2).
  rewrite Z.ltb_lt, Zlt_Qlt, !inject_Z_mult, !Zpower_Qpower by lia.
  change (inject_Z 2) with 2%Q.
  assert (H1 : (2 ^ e1 == 2 ^ (e1 - k) * 2 ^ k)%Q).
  { rewrite <- Qpower_plus by discriminate. replace (e1 - k + k) with e1 by lia. reflexivity. }
  assert (H2 : (2 ^ e2 == 2 ^ (e2 - k) * 2 ^ k)%Q).
  { rewrite <- Qpower_plus by discriminate. replace (e2 - k + k) with e2 by lia. reflexivity. }
  rewrite H1, H2. pose proof (Qpow2_pos k) as Hk.
  rewrite !Qmult_assoc. symmetry. apply Qmult_lt_r. exact Hk.
Qed.

Lemma int_of_float_pos x t :
  0 < fst x -> int_of_float x = Ok t ->
  0 <= t /\ (inject_Z t <= F2Q x /\ F2Q x < inject_Z t + 1)%Q.
Proof.
  destruct x as [m e]. simpl fst. intros Hm. unfold int_of_float. simpl fst. simpl snd.
  destruct (overflows (m, e)); [discriminate|]. intros H. injection H as <-.
  unfold F2Q. simpl fst. simpl snd.
  destruct (Z.leb_spec 0 e) as [He | He].
  - assert (Hp : 0 < 2 ^ e) by (apply Z.pow_pos_nonneg; lia).
    split; [nia|].
    rewrite inject_Z_mult, Zpower_Qpower by lia. change (inject_Z 2) with 2%Q.
    set (X := (inject_Z m * 2 ^ e)%Q). split; lra.
  - assert (Hp : 0 < 2 ^ (- e)) by (apply Z.pow_pos_nonneg; lia).
    rewrite Z.quot_div_nonneg by lia.
    pose proof (Z.div_mod m (2 ^ (- e)) ltac:(lia)) as Hdiv.
    pose proof (Z.mod_pos_bound m (2 ^ (- e)) Hp) as Hr.
    set (t := m / 2 ^ (- e)) in *. set (r := m mod 2 ^ (- e)) in *.
    assert (Ht : 0 <= t) by (apply Z.div_pos; lia).
    split; [exact Ht|].
    assert (Hq : (inject_Z (2 ^ (- e)) * 2 ^ e == 1)%Q).
    { rewrite Zpower_Qpower by lia. change (inject_Z 2) with 2%Q.
      rewrite <- Qpower_plus by discriminate.
      replace (- e + e) with 0 by lia. reflexivity. }
    assert (H1 : 2 ^ (- e) * t <= m) by lia.
    assert (H2 : m < 2 ^ (- e) * (t + 1)) by lia.
    rewrite Zle_Qle in H1. rewrite Zlt_Qlt in H2.
    rewrite inject_Z_mult in H1. rewrite inject_Z_mult, inject_Z_plus in H2.
    change (inject_Z 1) with 1%Q in H2.
    pose proof (Qpow2_pos e) as HEpos.
    set (D := inject_Z (2 ^ (- e))) in *. set (E := (2 ^ e)%Q) in *.
    set (qm := inject_Z m) in *. set (qt := inject_Z t) in *.
    assert (Ha : (D * qt * E <= qm * E)%Q) by (apply Qmult_le_compat_r; lra).
    assert (Hb : (qm * E < D * (qt + 1) * E)%Q) by (apply Qmult_lt_compat_r; lra).
    assert (Hc : (D * qt * E == qt * (D * E))%Q) by ring.
    assert (Hd : (D * (qt + 1) * E == (qt + 1) * (D * E))%Q) by ring.
    rewrite Hc, Hq, Qmult_1_r in Ha. rewrite Hd, Hq, Qmult_1_r in Hb.
    split; assumption.
Qed.

Lemma true_div_pos a b x :
  0 < a -> 0 < b -> true_div a b = Ok x ->
  x = round_pos a b /\ snd x <= 971.
Proof.
  intros Ha Hb. unfold true_div. destruct (Z.eqb_spec b 0); [lia|].
  rewrite Z.sgn_pos, Z.mul_1_r, Z.abs_eq, round_ratio_pos by lia.
  unfold overflows. destruct (Z.ltb_spec 971 (snd (round_pos a b))) as [Hov|Hov];
    [discriminate|].
  intros Hx. injection Hx as <-. split; [reflexivity | lia].
Qed.


Lemma float_of_int_pos a :
  0 < a < 2 ^ 31 ->
  float_of_int a = Ok (round_pos a 1) /\
  0 < fst (round_pos a 1) /\ (F2Q (round_pos a 1) == inject_Z a)%Q.
Proof.
  intros Ha. unfold float_of_int. rewrite round_ratio_pos by lia.
  destruct (round_pos_error a 1 ltac:(lia) ltac:(lia)) as (Hm & _).
  change (2 ^ 52) with 4503599627370496 in Hm.
  assert (H : snd (round_pos a 1) <= 31 - 52).
  { apply round_pos_exponent_bound; [lia | lia |].
    destruct Ha as [_ Ha]. rewrite Zlt_Qlt in Ha.
    change (inject_Z 1) with 1%Q. rewrite Qmult_1_r. exact Ha. }
  unfold overflows. destruct (Z.ltb_spec 971 (snd (round_pos a 1))); [lia|].
  split; [reflexivity|]. split; [lia|].
  apply round_pos_int_exact. lia.
Qed.

Lemma float_min_spec x y :
  (float_min x y = x /\ (F2Q x <= F2Q y)%Q) \/ (float_min x y = y /\ (F2Q y < F2Q x)%Q).
Proof.
  unfold float_min. destruct (float_lt y x) eqn:E.
  - right. split; [reflexivity|]. apply float_lt_spec. exact E.
  - left. split; [reflexivity|]. apply Qnot_lt_le. intros H.
    apply float_lt_spec in H. congruence.
Qed.

(** One output dimension: [max(1, int(d * scale))]. *)
Lemma scaled_dimension d scale t :
  0 < d < 2 ^ 31 -> 0 < fst scale ->
  int_of_float (float_mul (round_pos d 1) scale) = Ok t ->
  1 <= int_max 1 t /\
  (inject_Z d * F2Q scale * (1 - eps) - 1 < inject_Z (int_max 1 t) /\
   inject_Z (int_max 1 t) <= Qmax 1 (inject_Z d * F2Q scale * (1 + eps)))%Q.
Proof.
  intros Hd Hs Ht.
  destruct (float_of_int_pos d Hd) as (_ & Hfd & Hexact).
  destruct (float_mul_pos (round_pos d 1) scale Hfd Hs) as (Hm & [Hlo Hhi] & _).
  change (2 ^ 52) with 4503599627370496 in Hm.
  destruct (int_of_float_pos (float_mul (round_pos d 1) scale) t ltac:(lia) Ht)
    as (Ht0 & Ht1 & Ht2).
  rewrite Hexact in Hlo, Hhi.
  set (p := F2Q (float_mul (round_pos d 1) scale)) in *.
  set (x := (inject_Z d * F2Q scale)%Q) in *.
  unfold int_max. destruct (Z.ltb_spec 1 t) as [H1 | H1].
  - split; [lia|]. split; [lra|].
    apply Qle_trans with (x * (1 + eps))%Q; [lra | apply Q.le_max_r].
  - split; [lia|]. split; [|apply Q.le_max_l].
    assert (Hz : (inject_Z t <= 1)%Q) by (rewrite Zle_Qle in H1; exact H1).
    change (inject_Z 1) with 1%Q. lra.
Qed.



(** *** [contain] *)

Section Fitter.

(** The pixels of [image.resize(new_size, Image.Resampling.LANCZOS)], from
    the source size, the source pixels and the new size. *)
Variable P : Type.
Variable lanczos_pixels : Z * Z -> (Z -> Z -> P) -> Z * Z -> Z -> Z -> P.

(** [image.resize(new_size, LANCZOS)]: Pillow passes the two sides to C as
    ints and refuses a side below 1.  Running out of memory is not
    modelled: Pillow raises a [MemoryError] for a size it cannot
    allocate, so a result of this definition stands for one of the
    program's only at sizes Pillow can create; what is proved to return
    below is stated for the sizes of the tool's canvases. *)
Definition resize (image : Image P) (new_size : Z * Z) : result (Image P) :=
  let '(w, h) := new_size in
  if (2 ^ 31 <=? w) || (2 ^ 31 <=? h) then Raise OverflowError
  else if (w <? 1) || (h <? 1)
  then Raise (ValueError (py "height and width must be > 0"))
  else Ok (mkImage new_size (lanczos_pixels (size image) (getpixel image) new_size)).

Definition contain (image : Image P) (max_size : Z * Z) : result (Image P) :=
  let '(max_w, max_h) := max_size in
  let '(w, h) := size image in
  let* ratio_w := true_div max_w w in
  let* ratio_h := true_div max_h h in
  let scale := float_min ratio_w ratio_h in
  let* float_w := float_of_int w in
  let* scaled_w := int_of_float (float_mul float_w scale) in
  let new_w := int_max 1 scaled_w in
  let* float_h := float_of_int h in
  let* scaled_h := int_of_float (float_mul float_h scale) in
  let new_h := int_max 1 scaled_h in
  resize image (new_w, new_h).

(** *** Further properties of [contain] *)

(** What a successful call computed. *)
Lemma contain_inversion (image : Image P) (max_w max_h : Z) (out : Image P) :
  let w := fst (size image) in
  let h := snd (size image) in
  0 < w < 2 ^ 31 -> 0 < h < 2 ^ 31 -> 0 < max_w -> 0 < max_h ->
  contain image (max_w, max_h) = Ok out ->
  let scale := float_min (round_pos max_w w) (round_pos max_h h) in
  exists tw th,
    int_of_float (float_mul (round_pos w 1) scale) = Ok tw /\
    int_of_float (float_mul (round_pos h 1) scale) = Ok th /\
    size out = (int_max 1 tw, int_max 1 th) /\
    int_max 1 tw < 2 ^ 31 /\ int_max 1 th < 2 ^ 31.
Proof.
  intros w h Hw Hh Hmw Hmh. unfold contain.
  destruct (size image) as [w' h'] eqn:Hsz. simpl in w, h. subst w h.
  pose proof (float_of_int_pos w' Hw) as (Hfw & _ & _).
  pose proof (float_of_int_pos h' Hh) as (Hfh & _ & _).
  rewrite Hfw, Hfh. simpl bind.
  destruct (true_div max_w w') as [rw|] eqn:Erw; [|discriminate].
  destruct (true_div max_h h') as [rh|] eqn:Erh; [|discriminate].
  simpl bind.
  apply true_div_pos in Erw; [|lia..]. apply true_div_pos in Erh; [|lia..].
  destruct Erw as [-> _], Erh as [-> _].
  set (scale := float_min (round_pos max_w w') (round_pos max_h h')).
  destruct (int_of_float (float_mul (round_pos w' 1) scale)) as [tw|] eqn:Etw;
    [|discriminate].
  destruct (int_of_float (float_mul (round_pos h' 1) scale)) as [th|] eqn:Eth;
    [|discriminate].
  simpl bind. unfold resize.
  destruct (Z.leb_spec (2 ^ 31) (int_max 1 tw)) as [|Hnw]; [discriminate|].
  destruct (Z.leb_spec (2 ^ 31) (int_max 1 th)) as [|Hnh]; [discriminate|].
  simpl orb. cbv iota.
  destruct ((int_max 1 tw <? 1) || (int_max 1 th <? 1)); [discriminate|].
  intros Hout. injection Hout as <-. exists tw, th. repeat split; assumption.
Qed.

(** The scale against the two exact ratios, cleared of denominators. *)
Lemma scale_bounds (w h max_w max_h : Z) :
  0 < w -> 0 < h -> 0 < max_w -> 0 < max_h ->
  let scale := float_min (round_pos max_w w) (round_pos max_h h) in
  0 < fst scale /\
  (F2Q scale * inject_Z w <= inject_Z max_w * (1 + eps) /\
   F2Q scale * inject_Z h <= inject_Z max_h * (1 + eps) /\
   (inject_Z max_w * (1 - eps) <= F2Q scale * inject_Z w \/
    inject_Z max_h * (1 - eps) <= F2Q scale * inject_Z h))%Q.
Proof.
  intros Hw Hh Hmw Hmh scale. subst scale.
  destruct (round_pos_error max_w w Hmw Hw) as (Hm1 & Hl1 & Hu1).
  destruct (round_pos_error max_h h Hmh Hh) as (Hm2 & Hl2 & Hu2).
  change (2 ^ 52) with 4503599627370496 in Hm1, Hm2.
  assert (Hwq : (0 < inject_Z w)%Q) by (rewrite Zlt_Qlt in Hw; exact Hw).
  assert (Hhq : (0 < inject_Z h)%Q) by (rewrite Zlt_Qlt in Hh; exact Hh).
  pose proof (float_min_spec (round_pos max_w w) (round_pos max_h h)) as Hmin.
  set (A := F2Q (round_pos max_w w)) in *. set (B := F2Q (round_pos max_h h)) in *.
  unfold eps in *.
  destruct Hmin as [[-> Hle] | [-> Hlt]]; fold A B.
  - split; [lia|]. split; [exact Hu1|]. split; [nra | left; exact Hl1].
  - split; [lia|]. split; [nra|]. split; [exact Hu2 | right; exact Hl2].
Qed.


(** X6: The fit is tight: a returned image comes within one pixel of the box
    in width or in height. *)
Theorem contain_fills_box (image : Image P) (max_w max_h : Z) (out : Image P) :
  0 < fst (size image) < 2 ^ 31 -> 0 < snd (size image) < 2 ^ 31 ->
  0 < max_w -> 0 < max_h ->
  contain image (max_w, max_h) = Ok out ->
  max_w - 1 <= fst (size out) \/ max_h - 1 <= snd (size out).
Proof.
  intros Hw Hh Hmw Hmh Hout.
  destruct (contain_inversion image max_w max_h out Hw Hh Hmw Hmh Hout)
    as (tw & th & Etw & Eth & Hsz & Hnw & Hnh).
  destruct (scale_bounds (fst (size image)) (snd (size image)) max_w max_h
              ltac:(lia) ltac:(lia) Hmw Hmh)
    as (Hpos & _ & _ & Htight).
  rewrite Hsz. simpl fst. simpl snd.
  pose proof (scaled_dimension _ _ tw Hw Hpos Etw) as (_ & Hlw & _).
  pose proof (scaled_dimension _ _ th Hh Hpos Eth) as (_ & Hlh & _).
  assert (Hgen : forall (bound side : Z) (X : Q),
            side < 2 ^ 31 -> (inject_Z bound * (1 - eps) <= X)%Q ->
            (X * (1 - eps) - 1 < inject_Z side)%Q -> bound - 1 <= side).
  { intros bound side X Hs HX Hl.
    destruct (Z_le_gt_dec (bound - 1) side) as [|Hgt]; [assumption|exfalso].
    assert (Hb : side + 2 <= bound) by lia.
    rewrite Zle_Qle, inject_Z_plus in Hb. rewrite Zlt_Qlt in Hs.
    change (inject_Z 2) with 2%Q in Hb.
    change (inject_Z (2 ^ 31)) with 2147483648%Q in Hs.
    unfold eps in *.
    set (qb := inject_Z bound) in *. set (qs := inject_Z side) in *. lra. }
  destruct Htight as [Ht | Ht].
  - left. refine (Hgen max_w _ _ Hnw _ Hlw).
    eapply Qle_trans; [exact Ht|]. rewrite Qmult_comm. apply Qle_refl.
  - right. refine (Hgen max_h _ _ Hnh _ Hlh).
    eapply Qle_trans; [exact Ht|]. rewrite Qmult_comm. apply Qle_refl.
Qed.
End Fitter.

(** *** The model against the machine's binary64

    The kernel's primitive floats are the hardware's doubles.  On sample
    operands the division and the product defined above give the same
    mantissa and exponent. *)

Definition of_hardware (x : PrimFloat.float) : pyfloat :=
  match FloatOps.Prim2SF x with
  | SpecFloat.S754_finite negative m e => ((if negative then -1 else 1) * Z.pos m, e)
  | SpecFloat.S754_zero _ => (0, 0)
  | _ => (0, 972)
  end.

Definition hardware_int (a : Z) : PrimFloat.float := PrimFloat.of_uint63 (Uint63.of_Z a).

Definition sample_ratios : list (Z * Z) :=
  [(1, 49); (2, 49); (1, 3); (310, 1080); (530, 1350); (1200, 630); (7, 1);
   (2147483647, 3); (1, 2147483647); (4503599627370497, 3); (9007199254740993, 1)].

Example true_div_matches_hardware :
  map (fun ab => round_ratio (fst ab) (snd ab)) sample_ratios =
  map (fun ab => of_hardware (PrimFloat.div (hardware_int (fst ab)) (hardware_int (snd ab))))
    sample_ratios.
Proof. vm_compute. reflexivity. Qed.

Example float_mul_matches_hardware :
  map (fun ab => float_mul (round_ratio (snd ab) 1) (round_ratio (fst ab) (snd ab)))
    sample_ratios =
  map (fun ab => of_hardware
                   (PrimFloat.mul (hardware_int (snd ab))
                      (PrimFloat.div (hardware_int (fst ab)) (hardware_int (snd ab)))))
    sample_ratios.
Proof. vm_compute. reflexivity. Qed.

(** [49 * (2 / 49)] is 1.9999999999999998 in binary64, so a 49 x 49 image
    fitted into a 2 x 2 box comes out 1 x 1. *)
Definition blank (w h : Z) : Image unit := mkImage (w, h) (fun _ _ => tt).

Definition contain_blank (w h max_w max_h : Z) : result (Z * Z) :=
  let* out := contain unit (fun _ _ _ _ _ => tt) (blank w h) (max_w, max_h) in
  Ok (size out).

Example contain_examples :
  contain_blank 800 600 310 530 = Ok (310, 232) /\
  contain_blank 600 800 310 530 = Ok (310, 413) /\
  contain_blank 1000 1 10 10 = Ok (10, 1) /\
  contain_blank 49 49 2 2 = Ok (1, 1) /\
  contain_blank 0 10 5 5 = Raise ZeroDivisionError.
Proof. repeat split; vm_compute; reflexivity. Qed.



(** ** Product-page parser *)

Record ProductInfo : Type := mkProductInfo {
  slug : str;
  name_en : str;
  desc_ar : str;
  spec_ar : str;
  price : str;
  image_path : str;
  page_url : str
}.

(** What the parser reads of an element: its attributes and the result of
    [get_text(" ", strip=True)]. *)
Record Tag : Type := mkTag {
  attrs : gmap string str;
  get_text : str
}.

(** [tag.get(name)] *)
Definition tag_get (tag : Tag) (name : string) : option str := attrs tag !! name.

(** [value or ""] for an optional string. *)
Definition or_empty (value : option str) : str :=
  match value with Some v => v | None => [] end.

(** Truthiness of an optional string: [None] and [""] are false. *)
Definition truthy (value : option str) : bool :=
  match value with Some (_ :: _) => true | _ => false end.

(** The selector [link[rel="canonical"]]. *)
Definition canonical_selector : string :=
  let quote := String (ascii_of_nat 34) EmptyString in
  String.append "link[rel=" (String.append quote (String.append "canonical"
    (String.append quote "]"))).

Section Parser.
(** A parsed document with its CSS selection, and the file system: *)
Variable Soup : Type.
Variable select_one : Soup -> string -> option Tag.
(** [BeautifulSoup(text, "html.parser").get_text(" ", strip=True)] *)
Variable plain_text : str -> str.
(** paths are their resolved string; [read_soup] is
    [BeautifulSoup(html_path.read_text(...), "html.parser")], which
    raises when the file cannot be read; [sibling p src] is
    [(p.parent / src).resolve()].  The existence check is modelled by its
    answer: an [OSError] out of [Path.exists] (a name too long for the
    file system) is not modelled. *)
Variable read_soup : str -> result Soup.
Variable path_name : str -> str.
Variable path_stem : str -> str.
Variable sibling : str -> str -> str.
Variable path_exists : str -> bool.

Definition parse_product_page (repo_root html_path : str) : result ProductInfo :=
  let slug := path_stem html_path in
  let* soup := read_soup html_path in

  match select_one soup ".product-page-info h1" with
  | None =>
      Raise (ValueError (py "Missing product title (<h1>) in " ++ path_name html_path))
  | Some h1 =>
      let name_en :=
        strip (if truthy (tag_get h1 "data-en")
               then or_empty (tag_get h1 "data-en")
               else get_text h1) in
      let name_en := plain_text name_en in

      let desc := select_one soup ".product-page-desc" in
      let desc_ar :=
        or_empty (match desc with Some d => tag_get d "data-ar" | None => Some [] end) in

      let spec := select_one soup ".product-page-specs li span" in
      let spec_ar :=
        or_empty (match spec with Some d => tag_get d "data-ar" | None => Some [] end) in

      let price_el := select_one soup ".product-page-price .price" in
      let price :=
        strip (match price_el with Some e => get_text e | None => [] end) in

      match select_one soup ".product-page-img img" with
      | None =>
          Raise (ValueError (py "Missing product image in " ++ path_name html_path))
      | Some img =>
          if negb (truthy (tag_get img "src")) then
            Raise (ValueError (py "Missing product image in " ++ path_name html_path))
          else
            let image_path := sibling html_path (or_empty (tag_get img "src")) in
            if negb (path_exists image_path) then
              Raise (FileNotFoundError (py "Product image not found: " ++ image_path))
            else
              let canonical := select_one soup canonical_selector in
              let page_url :=
                match canonical with
                | Some c => strip (or_empty (tag_get c "href"))
                | None => []
                end in
              Ok (mkProductInfo slug name_en (strip desc_ar) (strip spec_ar)
                    price image_path page_url)
      end
  end.


(** *** Further properties of the parser *)

(** X8: A product the parser returns is named after the page file, its photo
    exists on disk, and its description, spec line, price and URL carry no
    white space at either end. *)
Theorem parse_product_page_product (repo_root html_path : str) (product : ProductInfo) :
  parse_product_page repo_root html_path = Ok product ->
  slug product = path_stem html_path /\
  path_exists (image_path product) = true /\
  strip (desc_ar product) = desc_ar product /\
  strip (spec_ar product) = spec_ar product /\
  strip (price product) = price product /\
  strip (page_url product) = page_url product.
Proof.
  unfold parse_product_page.
  destruct (read_soup html_path) as [soup|e]; [|discriminate]. simpl bind.
  destruct (select_one soup ".product-page-info h1"); [|discriminate].
  destruct (select_one soup ".product-page-img img") as [img|]; [|discriminate].
  destruct (negb (truthy (tag_get img "src"))); [discriminate|].
  destruct (path_exists (sibling html_path (or_empty (tag_get img "src")))) eqn:Hex;
    [|discriminate].
  simpl negb. cbv iota. intros H. injection H as <-. simpl.
  repeat split; try apply strip_idempotent; try assumption.
  destruct (select_one soup canonical_selector); [apply strip_idempotent | reflexivity].
Qed.
End Parser.




(** ** Driver *)

(** The parsed command line. *)
Record Args : Type := mkArgs {
  args_all : bool;
  args_product : list str;
  args_site_only : bool;
  args_dry_run : bool;
  args_format : option string
}.

(** [a < b] on strings, by code point. *)
Fixpoint str_ltb (a b : str) : bool :=
  match a, b with
  | [], [] => false
  | [], _ :: _ => true
  | _ :: _, [] => false
  | x :: a', y :: b' =>
      if (x <? y)%N then true else if (y <? x)%N then false else str_ltb a' b'
  end.

Fixpoint insert_sorted (x : str) (xs : list str) : list str :=
  match xs with
  | [] => [x]
  | y :: ys =>
      if str_ltb x y then x :: xs
      else if str_ltb y x then y :: insert_sorted x ys
      else xs
  end.

(** [sorted(set(xs))] *)
Definition sorted_set (xs : list str) : list str := fold_right insert_sorted [] xs.

(** [[(k, s) for k, s in SIZES if args.format is None or k == args.format]] *)
Definition sizes_of (args : Args) : list (string * (Z * Z)) :=
  List.filter (fun ks => match args_format args with
                         | None => true
                         | Some f => String.eqb (fst ks) f
                         end) SIZES.

(** The status the interpreter exits with on [raise SystemExit(main())]:
    the value returned, or 1 after an uncaught exception. *)
Definition exit_status (outcome : result Z) : Z :=
  match outcome with
  | Ok status => status
  | Raise _ => 1
  end.

Section Driver.
(** The run's surroundings: font discovery, the site tagline, the two
    renderers, the product pages on disk and their parser
    ([parse_product_page repo_root]), and whether the output directory
    lies under the repository root (otherwise [dest.relative_to(repo_root)]
    raises a [ValueError] when a log line is built).  [html.exists()] is
    modelled by its answer. *)
Variable load_fonts : result (str * str).
Variable parse_site_tagline : result str.
Variable render_site_image : string -> Z * Z -> str -> result unit.
Variable products_glob : list str.
Variable product_html : str -> str.
Variable html_exists : str -> bool.
Variable parse_page : str -> result ProductInfo.
Variable render_product_image : ProductInfo -> string -> Z * Z -> result unit.
Variable out_dir_in_repo : bool.

Definition relative_to_repo_root : result unit :=
  if out_dir_in_repo then Ok tt
  else Raise (ValueError (py "path is not in the subpath of the repository root")).

Section Run.
Variable args : Args.

(** The site loop: nothing is caught here. *)
Fixpoint site_loop (tagline : str) (sizes : list (string * (Z * Z)))
    (generated : Z) : result Z :=
  match sizes with
  | [] => Ok generated
  | (kind, size) :: rest =>
      let* _ :=
        if args_dry_run args then relative_to_repo_root
        else
          let* _ := render_site_image kind size tagline in
          relative_to_repo_root in
      site_loop tagline rest (generated + 1)
  end.

(** The [for kind, size in sizes] loop of one product.  In a real run
    the render and its log line sit in [try ... except Exception]; in a
    dry run the log line is unguarded. *)
Fixpoint kinds_loop (product : ProductInfo) (sizes : list (string * (Z * Z)))
    (generated errors : Z) : result (Z * Z) :=
  match sizes with
  | [] => Ok (generated, errors)
  | (kind, size) :: rest =>
      if args_dry_run args then
        let* _ := relative_to_repo_root in
        kinds_loop product rest (generated + 1) errors
      else
        match (let* _ := render_product_image product kind size in
               relative_to_repo_root) with
        | Ok _ => kinds_loop product rest (generated + 1) errors
        | Raise _ => kinds_loop product rest generated (errors + 1)
        end
  end.

(** The [for html in html_files] loop. *)
Fixpoint products_loop (html_files : list str) (generated errors : Z)
    : result (Z * Z) :=
  match html_files with
  | [] => Ok (generated, errors)
  | html :: rest =>
      if negb (html_exists html) then products_loop rest generated (errors + 1)
      else
        match parse_page html with
        | Raise (ValueError _) | Raise (FileNotFoundError _) =>
            products_loop rest generated (errors + 1)
        | Raise e => Raise e
        | Ok product =>
            let* ge := kinds_loop product (sizes_of args) generated errors in
            products_loop rest (fst ge) (snd ge)
        end
  end.

(** [wanted], sorted, or the whole directory with [--all]; [None] when
    the driver returns before the product loop. *)
Definition html_files : option (list str) :=
  if args_site_only args then None
  else if args_all args then Some products_glob
  else
    let wanted :=
      sorted_set (List.filter (fun s => negb (len s =? 0))
                    (map strip (args_product args))) in
    match wanted with
    | [] => None
    | _ => Some (map product_html wanted)
    end.

(** [args.all or args.site_only or (not args.product and not args.all)] *)
Definition renders_site : bool :=
  args_all args || args_site_only args
  || (match args_product args with [] => true | _ => false end
      && negb (args_all args)).

(** [main] from the font discovery on, for the namespace [args] that
    [parser.parse_args()] has returned; the command line itself is the
    [CommandLine] of [script] below. *)
Definition main : result Z :=
  match load_fonts with
  | Raise (FileNotFoundError _) => Ok 1
  | Raise e => Raise e
  | Ok _ =>
      let generated := 0 in
      let errors := 0 in
      let* tagline := parse_site_tagline in
      let* generated :=
        if renders_site then site_loop tagline (sizes_of args) generated
        else Ok generated in
      match html_files with
      | None => Ok 0
      | Some files =>
          let* ge := products_loop files generated errors in
          Ok (if snd ge =? 0 then 0 else 1)
      end
  end.

(** *** Items and their errors *)

Definition render_raises (product : ProductInfo) (ks : string * (Z * Z)) : bool :=
  match render_product_image product (fst ks) (snd ks) with
  | Raise _ => true
  | Ok _ => false
  end.










(** *** Further properties of the loops *)

(** What one product page adds to the two counters together: one count
    per output kind when it parses, one error otherwise. *)
Definition item_count (html : str) : Z :=
  if html_exists html then
    match parse_page html with
    | Ok _ => len (sizes_of args)
    | Raise _ => 1
    end
  else 1.

Definition planned (files : list str) : Z :=
  fold_right (fun html n => item_count html + n) 0 files.

Lemma kinds_loop_accounts product sizes : forall generated errors ge,
  kinds_loop product sizes generated errors = Ok ge ->
  fst ge + snd ge = generated + errors + len sizes /\
  generated <= fst ge /\ errors <= snd ge.
Proof.
  induction sizes as [|[kind size] rest IH]; intros generated errors ge H.
  - simpl in H. injection H as <-. unfold len. simpl. lia.
  - change (len ((kind, size) :: rest)) with (Z.of_nat (S (length rest))).
    assert (Hlen : Z.of_nat (S (length rest)) = len rest + 1) by (unfold len; lia).
    simpl in H. destruct (args_dry_run args).
    + destruct relative_to_repo_root; simpl in H; [|discriminate].
      apply IH in H. lia.
    + destruct (let* _ := render_product_image product kind size in _);
        apply IH in H; lia.
Qed.

(** X10: Every page the loop has gone through is accounted for exactly once in
    [generated + errors], in a real run and in a dry run alike, and neither
    counter ever decreases. *)
Theorem products_loop_accounts (files : list str) (generated errors : Z)
    (ge : Z * Z) :
  products_loop files generated errors = Ok ge ->
  fst ge + snd ge = generated + errors + planned files /\
  generated <= fst ge /\ errors <= snd ge.
Proof.
  revert generated errors. induction files as [|html rest IH];
    intros generated errors H.
  - simpl in H. injection H as <-. simpl. lia.
  - simpl in H. simpl planned. unfold item_count.
    destruct (html_exists html); simpl in H.
    + destruct (parse_page html) as [product|e].
      * destruct (kinds_loop product (sizes_of args) generated errors)
          as [[g e]|e] eqn:Hk; simpl in H; [|discriminate].
        apply kinds_loop_accounts in Hk. apply IH in H. simpl in *. lia.
      * destruct e; try discriminate; apply IH in H; lia.
    + apply IH in H. lia.
Qed.

(** A render of a real run fails when [render_product_image] raises, or
    when the log line that follows it cannot be built. *)
Definition render_fails (product : ProductInfo) (ks : string * (Z * Z)) : bool :=
  render_raises product ks || negb out_dir_in_repo.

(** X9: In a real run the loop over the formats of a product always
    reaches its end: a render that fails is counted as an error and the
    formats after it are still rendered, so [generated] grows by the
    number of renders that succeed and [errors] by the number that
    fail. *)
Theorem real_run_counts_failed_renders (product : ProductInfo)
    (sizes : list (string * (Z * Z))) (generated errors : Z) :
  args_dry_run args = false ->
  kinds_loop product sizes generated errors =
  Ok (generated + len (List.filter (fun ks => negb (render_fails product ks)) sizes),
      errors + len (List.filter (render_fails product) sizes)).
Proof.
  intros Hdry. revert generated errors.
  induction sizes as [|[kind size] rest IH]; intros generated errors.
  - simpl. unfold len. simpl. rewrite !Z.add_0_r. reflexivity.
  - assert (Hcons : forall (ks : string * (Z * Z)) l, len (ks :: l) = 1 + len l)
      by (intros; unfold len; simpl length; lia).
    cbn [kinds_loop List.filter]. rewrite Hdry.
    destruct (render_fails product (kind, size)) eqn:Ef; cbn [negb];
      unfold render_fails, render_raises in Ef; cbn [fst snd] in Ef;
      unfold relative_to_repo_root;
      destruct (render_product_image product kind size) as [[]|e];
      destruct out_dir_in_repo; try discriminate Ef; simpl;
      rewrite IH, ?Hcons; f_equal; f_equal; lia.
Qed.
End Run.

(** *** A dry run against a real run *)

Lemma kinds_loop_all_generated args product sizes : forall generated errors,
  out_dir_in_repo = true ->
  args_dry_run args = true
  \/ (forall ks, In ks sizes -> render_product_image product (fst ks) (snd ks) = Ok tt) ->
  kinds_loop args product sizes generated errors = Ok (generated + len sizes, errors).
Proof.
  induction sizes as [|[kind size] rest IH]; intros generated errors Hout Hok.
  - simpl. unfold len. simpl. rewrite Z.add_0_r. reflexivity.
  - assert (Hlen : len ((kind, size) :: rest) = 1 + len rest) by (unfold len; simpl; lia).
    rewrite Hlen, Z.add_assoc. simpl. unfold relative_to_repo_root. rewrite Hout.
    destruct (args_dry_run args) eqn:Hdry.
    + simpl. apply IH; [assumption | left; reflexivity].
    + destruct Hok as [Hd | Hok]; [discriminate|].
      pose proof (Hok (kind, size) (or_introl eq_refl)) as Hr. simpl in Hr.
      rewrite Hr. simpl. apply IH; [assumption | right].
      intros ks Hks. apply Hok. right. exact Hks.
Qed.

(** X11: With the output directory inside the repository, a dry run leaves the
    product loop with the same counters as a real run in which every
    render succeeds. *)
Theorem dry_run_counts_like_success (all : bool) (product : list str)
    (site_only : bool) (format : option string)
    (files : list str) (generated errors : Z) :
  out_dir_in_repo = true ->
  (forall html page ks,
     In html files -> parse_page html = Ok page ->
     In ks (sizes_of (mkArgs all product site_only false format)) ->
     render_product_image page (fst ks) (snd ks) = Ok tt) ->
  products_loop (mkArgs all product site_only true format) files generated errors =
  products_loop (mkArgs all product site_only false format) files generated errors.
Proof.
  intros Hout Hok. revert generated errors.
  induction files as [|html rest IH]; intros generated errors; [reflexivity|].
  assert (Hrest : forall h page ks,
            In h rest -> parse_page h = Ok page ->
            In ks (sizes_of (mkArgs all product site_only false format)) ->
            render_product_image page (fst ks) (snd ks) = Ok tt)
    by (intros h page ks Hh; apply Hok; right; exact Hh).
  simpl. destruct (html_exists html); simpl; [|apply IH; exact Hrest].
  destruct (parse_page html) as [page|e] eqn:Hp.
  - change (sizes_of (mkArgs all product site_only true format))
      with (sizes_of (mkArgs all product site_only false format)).
    rewrite (kinds_loop_all_generated (mkArgs all product site_only true format) page _
               generated errors Hout (or_introl eq_refl)).
    rewrite (kinds_loop_all_generated (mkArgs all product site_only false format) page _
               generated errors Hout
               (or_intror (fun ks Hks => Hok html page ks (or_introl eq_refl) Hp Hks))).
    simpl. apply IH. exact Hrest.
  - destruct e; try reflexivity; apply IH; exact Hrest.
Qed.
End Driver.

(** A run for the examples: one product page, [rad-140], which parses to
    [demo_product]; both renderers succeed; the output directory is inside
    the repository. *)
Definition demo_product : ProductInfo :=
  mkProductInfo (py "rad-140") (py "RAD-140") [] [] (py "45 JOD")
    (py "img/rad-140.png") [].

Definition demo_main (fonts : result (str * str)) (page_exists : bool) (args : Args)
    : result Z :=
  main fonts (Ok (py "tagline")) (fun _ _ _ => Ok tt)
    [py "products/rad-140.html"]
    (fun slug => py "products/" ++ slug ++ py ".html")
    (fun _ => page_exists) (fun _ => Ok demo_product) (fun _ _ _ => Ok tt) true args.

Definition found_fonts : result (str * str) := Ok (py "regular.ttf", py "bold.ttf").

Example demo_main_all : demo_main found_fonts true (mkArgs true [] false false None) = Ok 0.
Proof. vm_compute. reflexivity. Qed.

Example demo_main_missing_page :
  demo_main found_fonts false (mkArgs false [py " rad-140 "] false false None) = Ok 1.
Proof. vm_compute. reflexivity. Qed.



(** ** Font discovery *)

Section Fonts.
(** [Path(candidate).exists()] *)
Variable path_exists : str -> bool.

(** The [for candidate in candidates] loop: the first candidate that is
    not empty and exists. *)
Fixpoint first_usable (candidates : list str) : option str :=
  match candidates with
  | [] => None
  | candidate :: rest =>
      match candidate with
      | [] => first_usable rest
      | _ => if path_exists candidate then Some candidate else first_usable rest
      end
  end.

Definition find_font_file (candidates : list str) : result str :=
  match first_usable candidates with
  | Some candidate => Ok candidate
  | None =>
      Raise (FileNotFoundError
               (py "No usable font found among: "
                ++ join (py ", ")
                     (List.filter (fun c => negb (len c =? 0)) candidates)))
  end.

Definition regular_candidates : list str :=
  [py "C:/Windows/Fonts/segoeui.ttf";
   py "C:/Windows/Fonts/arial.ttf";
   py "/usr/share/fonts/truetype/dejavu/DejaVuSans.ttf";
   py "/Library/Fonts/Arial Unicode.ttf";
   py "/Library/Fonts/Arial.ttf"].

Definition bold_candidates : list str :=
  [py "C:/Windows/Fonts/segoeuib.ttf";
   py "C:/Windows/Fonts/arialbd.ttf";
   py "/usr/share/fonts/truetype/dejavu/DejaVuSans-Bold.ttf";
   py "/Library/Fonts/Arial Bold.ttf"].

Definition load_fonts : result (str * str) :=
  let* regular := find_font_file regular_candidates in
  let* bold := find_font_file bold_candidates in
  Ok (regular, bold).

(** A candidate the search passes over. *)
Definition unusable (candidate : str) : Prop :=
  candidate = [] \/ path_exists candidate = false.

Lemma first_usable_some candidates : forall candidate,
  first_usable candidates = Some candidate ->
  exists before after,
    candidates = before ++ candidate :: after /\
    candidate <> [] /\ path_exists candidate = true /\
    Forall unusable before.
Proof.
  induction candidates as [|c rest IH]; intros candidate H; [discriminate|].
  simpl in H. destruct c as [|x c'].
  - destruct (IH _ H) as (before & after & -> & Hne & Hex & Hbefore).
    exists ([] :: before), after.
    split; [reflexivity|]. split; [exact Hne|]. split; [exact Hex|].
    constructor; [left; reflexivity | exact Hbefore].
  - destruct (path_exists (x :: c')) eqn:E.
    + injection H as <-. exists [], rest.
      split; [reflexivity|]. split; [discriminate|]. split; [exact E | constructor].
    + destruct (IH _ H) as (before & after & -> & Hne & Hex & Hbefore).
      exists ((x :: c') :: before), after.
      split; [reflexivity|]. split; [exact Hne|]. split; [exact Hex|].
      constructor; [right; exact E | exact Hbefore].
Qed.

Lemma first_usable_none candidates :
  first_usable candidates = None <-> Forall unusable candidates.
Proof.
  induction candidates as [|c rest IH]; simpl.
  - split; [constructor | reflexivity].
  - destruct c as [|x c'].
    + rewrite IH. split.
      * intros H. constructor; [left; reflexivity | exact H].
      * intros H. inversion H. assumption.
    + destruct (path_exists (x :: c')) eqn:E.
      * split; [discriminate|]. intros H. inversion H as [|? ? Hu _]; subst.
        destruct Hu as [Hu | Hu]; [discriminate | congruence].
      * rewrite IH. split.
        -- intros H. constructor; [right; exact E | exact H].
        -- intros H. inversion H. assumption.
Qed.

(** X15: The font returned is the first candidate, in the order given, that is
    a non-empty path to an existing file. *)
Theorem find_font_file_first_usable (candidates : list str) (font : str) :
  find_font_file candidates = Ok font ->
  exists before after,
    candidates = before ++ font :: after /\
    font <> [] /\ path_exists font = true /\
    Forall unusable before.
Proof.
  unfold find_font_file. destruct (first_usable candidates) as [c|] eqn:E;
    [|discriminate].
  intros H. injection H as <-. apply first_usable_some. exact E.
Qed.

(** X16: The search raises, and then a [FileNotFoundError], exactly when every
    candidate is empty or missing. *)
Theorem find_font_file_raises (candidates : list str) :
  Forall unusable candidates <->
  exists msg, find_font_file candidates = Raise (FileNotFoundError msg).
Proof.
  unfold find_font_file. rewrite <- first_usable_none.
  destruct (first_usable candidates) as [c|]; split.
  - discriminate.
  - intros [msg H]. discriminate.
  - intros _. eexists. reflexivity.
  - reflexivity.
Qed.
End Fonts.

Definition only_dejavu (path : str) : bool :=
  existsb (fun p => bool_decide (p = path))
    [py "/usr/share/fonts/truetype/dejavu/DejaVuSans.ttf";
     py "/usr/share/fonts/truetype/dejavu/DejaVuSans-Bold.ttf"].

Example load_fonts_dejavu :
  load_fonts only_dejavu =
  Ok (py "/usr/share/fonts/truetype/dejavu/DejaVuSans.ttf",
      py "/usr/share/fonts/truetype/dejavu/DejaVuSans-Bold.ttf").
Proof. vm_compute. reflexivity. Qed.

Lemma find_font_file_first_usable_witness :
  exists before after,
    regular_candidates =
      before ++ py "/usr/share/fonts/truetype/dejavu/DejaVuSans.ttf" :: after /\
    py "/usr/share/fonts/truetype/dejavu/DejaVuSans.ttf" <> [] /\
    only_dejavu (py "/usr/share/fonts/truetype/dejavu/DejaVuSans.ttf") = true /\
    Forall (unusable only_dejavu) before.
Proof.
  apply (find_font_file_first_usable only_dejavu regular_candidates).
  vm_compute. reflexivity.
Defined.

(** *** The command line and the fonts *)

(** [main] begins with [parser.parse_args()]: it returns the namespace, or
    argparse leaves through [SystemExit] (status 2 on an option it
    rejects, 0 after [--help]). *)
Inductive CommandLine : Type :=
| Namespace (args : Args)
| SystemExit (status : Z).

(** The status the process exits with on [raise SystemExit(main())]:
    argparse's own when it exits; otherwise that of the rest of [main],
    which resolves the output directory ([Path(args.out).resolve()]) and
    then runs as [run]. *)
Definition script (parsed : CommandLine) (out_dir : result str)
    (run : Args -> result Z) : Z :=
  match parsed with
  | SystemExit status => status
  | Namespace args => exit_status (let* _ := out_dir in run args)
  end.

Lemma load_fonts_raises (path_exists : str -> bool) :
  (forall c, In c regular_candidates -> path_exists c = false) \/
  (forall c, In c bold_candidates -> path_exists c = false) ->
  exists msg, load_fonts path_exists = Raise (FileNotFoundError msg).
Proof.
  intros Hnone.
  assert (Hraise : forall candidates,
            (forall c, In c candidates -> path_exists c = false) ->
            exists msg, find_font_file path_exists candidates = Raise (FileNotFoundError msg)).
  { intros candidates H. unfold find_font_file.
    rewrite (proj2 (first_usable_none path_exists candidates)); [eexists; reflexivity|].
    apply List.Forall_forall. intros c Hc. right. apply H. exact Hc. }
  unfold load_fonts. destruct Hnone as [Hreg | Hbold].
  - destruct (Hraise _ Hreg) as [msg ->]. eexists. reflexivity.
  - destruct (find_font_file path_exists regular_candidates) as [regular|e] eqn:Er.
    + destruct (Hraise _ Hbold) as [msg ->]. eexists. reflexivity.
    + unfold find_font_file in Er. destruct (first_usable _ _); [discriminate|].
      injection Er as <-. eexists. reflexivity.
Qed.

(** X17: When none of the regular candidates exists, or none of the bold
    ones, the process exits with 1 for every namespace [parse_args]
    returns, whatever the pages and the renderers; when argparse exits
    itself, its status is the process's. *)
Theorem main_without_fonts (path_exists : str -> bool)
    (parse_site_tagline : result str)
    (render_site_image : string -> Z * Z -> str -> result unit)
    (products_glob : list str) (product_html : str -> str)
    (html_exists : str -> bool) (parse_page : str -> result ProductInfo)
    (render_product_image : ProductInfo -> string -> Z * Z -> result unit)
    (out_dir_in_repo : bool) (parsed : CommandLine) (out_dir : result str) :
  (forall c, In c regular_candidates -> path_exists c = false) \/
  (forall c, In c bold_candidates -> path_exists c = false) ->
  script parsed out_dir
    (main (load_fonts path_exists) parse_site_tagline render_site_image products_glob
       product_html html_exists parse_page render_product_image out_dir_in_repo)
  = match parsed with
    | Namespace _ => 1
    | SystemExit status => status
    end.
Proof.
  intros Hnone. destruct (load_fonts_raises path_exists Hnone) as [msg Hfonts].
  destruct parsed as [args|status]; [|reflexivity].
  unfold script. destruct out_dir as [dir|e]; [|reflexivity].
  simpl. unfold main. rewrite Hfonts. reflexivity.
Qed.

Lemma main_without_fonts_witness :
  script (Namespace (mkArgs true [] false false None)) (Ok (py "assets/social"))
    (main (load_fonts (fun _ => false)) (Ok (py "tagline")) (fun _ _ _ => Ok tt)
       [py "products/rad-140.html"] (fun slug => slug) (fun _ => true)
       (fun _ => Ok demo_product) (fun _ _ _ => Ok tt) true)
  = 1.
Proof.
  apply (main_without_fonts (fun _ => false) (Ok (py "tagline")) (fun _ _ _ => Ok tt)
           [py "products/rad-140.html"] (fun slug => slug) (fun _ => true)
           (fun _ => Ok demo_product) (fun _ _ _ => Ok tt) true
           (Namespace (mkArgs true [] false false None)) (Ok (py "assets/social"))).
  left. intros c _. reflexivity.
Defined.

(** ** Site tagline *)

(** The selectors [meta[property="og:description"]] and
    [meta[name="description"]]. *)
Definition og_description_selector : string :=
  let quote := String (ascii_of_nat 34) EmptyString in
  String.append "meta[property=" (String.append quote (String.append "og:description"
    (String.append quote "]"))).

Definition description_selector : string :=
  let quote := String (ascii_of_nat 34) EmptyString in
  String.append "meta[name=" (String.append quote (String.append "description"
    (String.append quote "]"))).

(** The fallback phrase, as code points (three Arabic words). *)
Definition default_tagline : str :=
  [1605; 1603; 1605; 1604; 1575; 1578; 32; 1585; 1610; 1575; 1590; 1610; 1577; 32;
   1608; 1605; 1585; 1603; 1576; 1575; 1578; 32; 1576; 1581; 1579; 1610; 1577]%N.

Section SiteTagline.
Variable Soup : Type.
Variable select_one : Soup -> string -> option Tag.
Variable read_soup : str -> result Soup.
(** [repo_root / "index.html"] and [Path.exists]. *)
Variable index_html : str -> str.
Variable path_exists : str -> bool.

Definition parse_site_tagline (repo_root : str) : result str :=
  let index_path := index_html repo_root in
  if negb (path_exists index_path) then Ok default_tagline
  else
    let* soup := read_soup index_path in
    let meta :=
      match select_one soup og_description_selector with
      | Some m => Some m
      | None => select_one soup description_selector
      end in
    let content :=
      or_empty (match meta with Some m => tag_get m "content" | None => Some [] end) in
    match strip content with
    | [] => Ok default_tagline
    | tagline => Ok tagline
    end.

(** A tagline the function returns is never blank: it has at least one
    word and no white space at either end. *)
Lemma parse_site_tagline_has_word (repo_root tagline : str) :
  parse_site_tagline repo_root = Ok tagline ->
  split tagline <> [] /\ strip tagline = tagline.
Proof.
  unfold parse_site_tagline.
  assert (Hdefault : split default_tagline <> [] /\ strip default_tagline = default_tagline)
    by (split; [vm_compute; discriminate | vm_compute; reflexivity]).
  destruct (negb (path_exists (index_html repo_root))).
  { intros H. injection H as <-. exact Hdefault. }
  destruct (read_soup (index_html repo_root)) as [soup|e]; [|discriminate].
  simpl bind. set (content := or_empty _).
  destruct (strip content) as [|c t] eqn:E.
  - intros H. injection H as <-. exact Hdefault.
  - intros H. injection H as <-. rewrite <- E. split.
    + apply starts_clean_has_word; [rewrite E; discriminate | apply strip_trimmed].
    + apply strip_idempotent.
Qed.

(** X18: When the page has an Open Graph description, the plain description is
    never consulted: a missing or blank [content] on the Open Graph tag
    gives the fallback phrase, whatever the plain description holds. *)
Theorem parse_site_tagline_og_blank (repo_root : str) (soup : Soup) (og : Tag) :
  path_exists (index_html repo_root) = true ->
  read_soup (index_html repo_root) = Ok soup ->
  select_one soup og_description_selector = Some og ->
  strip (or_empty (tag_get og "content")) = [] ->
  parse_site_tagline repo_root = Ok default_tagline.
Proof.
  intros Hex Hread Hog Hblank. unfold parse_site_tagline.
  rewrite Hex, Hread. simpl. rewrite Hog, Hblank. reflexivity.
Qed.
End SiteTagline.

(** X19: The tagline of the site image always wraps into at least one line and
    at most [max_lines] (3 in [render_site_image]). *)
Theorem site_tagline_lines (Soup : Type) (select_one : Soup -> string -> option Tag)
    (read_soup : str -> result Soup) (index_html : str -> str)
    (path_exists : str -> bool)
    (reshape get_display : str -> str) (ImageDraw ImageFont : Type)
    (textbbox : ImageDraw -> str -> ImageFont -> Z * Z * Z * Z)
    (draw : ImageDraw) (font : ImageFont) (max_width max_lines : Z)
    (repo_root tagline : str) :
  parse_site_tagline Soup select_one read_soup index_html path_exists repo_root
    = Ok tagline ->
  1 <= max_lines ->
  1 <= len (wrap_text reshape get_display ImageDraw ImageFont textbbox draw font
              max_width max_lines tagline) <= max_lines.
Proof.
  intros Htag Hcap.
  destruct (parse_site_tagline_has_word _ _ _ _ _ _ _ Htag) as [Hword _].
  unfold wrap_text. rewrite split_strip.
  destruct (wrap_loop_groups reshape get_display ImageDraw ImageFont textbbox draw font
              max_width max_lines (split tagline) [] [])
    as (groups & dropped & Hres & _ & _ & Hle & _ & Hnz).
  { unfold len. simpl. lia. }
  simpl in Hres, Hle, Hnz.
  destruct (split tagline) as [|w ws] eqn:E; [congruence|].
  rewrite Hres. split; [|exact Hle].
  specialize (Hnz ltac:(discriminate)). destruct groups; [congruence|].
  unfold len. simpl. lia.
Qed.

(** A site page for the examples: an Open Graph description with a blank
    content next to a plain description. *)
Definition demo_index : gmap string Tag :=
  {[ og_description_selector := mkTag {[ "content" := py "  " ]} [];
     description_selector := mkTag {[ "content" := py "Research compounds" ]} [] ]}.

Definition tagline_demo (page : gmap string Tag) : result str :=
  parse_site_tagline (gmap string Tag) (fun soup selector => soup !! selector)
    (fun _ => Ok page) (fun root => root) (fun _ => true) [].

Example tagline_demo_plain_description :
  tagline_demo {[ description_selector := mkTag {[ "content" := py " Research compounds " ]} [] ]}
  = Ok (py "Research compounds").
Proof. reflexivity. Qed.

Lemma parse_site_tagline_has_word_witness :
  split (py "Research compounds") <> [] /\
  strip (py "Research compounds") = py "Research compounds".
Proof.
  apply (parse_site_tagline_has_word (gmap string Tag) (fun soup selector => soup !! selector)
           (fun _ => Ok {[ description_selector :=
                             mkTag {[ "content" := py " Research compounds " ]} [] ]})
           (fun root => root) (fun _ => true) []).
  reflexivity.
Defined.

Lemma parse_site_tagline_og_blank_witness : tagline_demo demo_index = Ok default_tagline.
Proof.
  apply (parse_site_tagline_og_blank (gmap string Tag) (fun soup selector => soup !! selector)
           (fun _ => Ok demo_index) (fun root => root) (fun _ => true) [] demo_index
           (mkTag {[ "content" := py "  " ]} [])); reflexivity.
Defined.

Lemma site_tagline_lines_witness :
  1 <= len (wrap_mono 300 3 (py "Research compounds")) <= 3.
Proof.
  apply (site_tagline_lines (gmap string Tag) (fun soup selector => soup !! selector)
           (fun _ => Ok {[ description_selector :=
                             mkTag {[ "content" := py " Research compounds " ]} [] ]})
           (fun root => root) (fun _ => true)
           (fun s => s) (fun s => s) unit unit mono_bbox tt tt 300 3 []).
  - reflexivity.
  - lia.
Defined.

(** ** Further examples of the fitter, the parser and the loops *)

Lemma contain_fills_box_witness : 310 - 1 <= 310 \/ 530 - 1 <= 232.
Proof.
  apply (contain_fills_box unit (fun _ _ _ _ _ => tt) (blank 800 600) 310 530
           (mkImage (310, 232) (fun _ _ => tt))).
  - split; reflexivity.
  - split; reflexivity.
  - reflexivity.
  - reflexivity.
  - vm_compute. reflexivity.
Defined.

(** ** An output directory outside the repository *)

(** X12: When [--out] is not under the repository root, building a log line
    raises.  The site loop then stops with an exception at its first
    image, and so does a dry run of a product; a real run of a product
    goes on, but counts every image as an error, also the ones it
    rendered. *)
Theorem out_dir_outside_repo
    (render_site_image : string -> Z * Z -> str -> result unit)
    (render_product_image : ProductInfo -> string -> Z * Z -> result unit)
    (args : Args) (tagline : str) (product : ProductInfo)
    (sizes : list (string * (Z * Z))) (generated errors : Z) :
  sizes <> [] ->
  (exists e, site_loop render_site_image false args tagline sizes generated = Raise e) /\
  (args_dry_run args = true ->
   exists msg,
     kinds_loop render_product_image false args product sizes generated errors
     = Raise (ValueError msg)) /\
  (args_dry_run args = false ->
   kinds_loop render_product_image false args product sizes generated errors
   = Ok (generated, errors + len sizes)).
Proof.
  intros Hsizes. split; [|split].
  - destruct sizes as [|[kind size] rest]; [congruence|]. simpl.
    destruct (args_dry_run args); simpl; [eexists; reflexivity|].
    destruct (render_site_image kind size tagline); simpl; eexists; reflexivity.
  - intros Hdry. destruct sizes as [|[kind size] rest]; [congruence|]. simpl.
    rewrite Hdry. simpl. eexists. reflexivity.
  - intros Hdry. clear Hsizes. revert errors.
    induction sizes as [|[kind size] rest IH]; intros errors.
    + simpl. unfold len. simpl. rewrite Z.add_0_r. reflexivity.
    + assert (Hlen : len ((kind, size) :: rest) = 1 + len rest) by (unfold len; simpl; lia).
      rewrite Hlen, Z.add_assoc. simpl. rewrite Hdry.
      destruct (render_product_image product kind size); simpl; apply IH.
Qed.

Lemma out_dir_outside_repo_witness :
  (exists e, site_loop (fun _ _ _ => Ok tt) false (mkArgs true [] false false None)
               (py "tagline") SIZES 0 = Raise e) /\
  (false = true ->
   exists msg,
     kinds_loop (fun _ _ _ => Ok tt) false (mkArgs true [] false false None)
       demo_product SIZES 0 0 = Raise (ValueError msg)) /\
  (false = false ->
   kinds_loop (fun _ _ _ => Ok tt) false (mkArgs true [] false false None)
     demo_product SIZES 0 0 = Ok (0, 0 + len SIZES)).
Proof.
  apply (out_dir_outside_repo (fun _ _ _ => Ok tt) (fun _ _ _ => Ok tt)
           (mkArgs true [] false false None) (py "tagline") demo_product SIZES 0 0).
  discriminate.
Defined.

(** ** Further examples of the parser and the loops *)

(** A populated page: every optional field present and padded with white
    space; the photo resolves to a file that exists, next to one that does
    not. *)
Definition full_page : gmap string Tag :=
  {[ ".product-page-info h1" := mkTag {[ "data-en" := py " RAD-140 " ]} (py "RAD 140");
     ".product-page-desc" := mkTag {[ "data-ar" := py "  lean mass research  " ]} [];
     ".product-page-specs li span" := mkTag {[ "data-ar" := py " 10 mg x 60 " ]} [];
     ".product-page-price .price" := mkTag ∅ (py "45 JOD");
     ".product-page-img img" := mkTag {[ "src" := py "../img/rad-140.png" ]} [];
     canonical_selector :=
       mkTag {[ "href" := py " https://apex-labs.tech/products/rad-140.html " ]} [] ]}.

(** The paths of this page: its name, its stem, and the photo its [src]
    resolves to. *)
Definition full_name (p : str) : str :=
  if bool_decide (p = py "products/rad-140.html") then py "rad-140.html" else p.

Definition full_stem (p : str) : str :=
  if bool_decide (p = py "products/rad-140.html") then py "rad-140" else p.

Definition full_sibling (p src : str) : str :=
  if bool_decide (src = py "../img/rad-140.png") then py "/site/img/rad-140.png"
  else p ++ src.

Definition parse_full (html_path : str) : result ProductInfo :=
  parse_product_page (gmap string Tag) (fun soup selector => soup !! selector)
    (fun s => s) (fun _ => Ok full_page) full_name full_stem full_sibling
    (fun p => bool_decide (p = py "/site/img/rad-140.png")) [] html_path.

Definition full_product : ProductInfo :=
  mkProductInfo (py "rad-140") (py "RAD-140") (py "lean mass research") (py "10 mg x 60")
    (py "45 JOD") (py "/site/img/rad-140.png")
    (py "https://apex-labs.tech/products/rad-140.html").

Example parse_full_product : parse_full (py "products/rad-140.html") = Ok full_product.
Proof. reflexivity. Qed.

Lemma parse_product_page_product_witness :
  parse_full (py "products/rad-140.html") = Ok full_product /\
  (slug full_product = py "rad-140" /\
   bool_decide (image_path full_product = py "/site/img/rad-140.png") = true /\
   strip (py "lean mass research") = py "lean mass research" /\
   strip (py "10 mg x 60") = py "10 mg x 60" /\
   strip (py "45 JOD") = py "45 JOD" /\
   strip (py "https://apex-labs.tech/products/rad-140.html") =
     py "https://apex-labs.tech/products/rad-140.html").
Proof.
  split; [reflexivity|].
  exact (parse_product_page_product (gmap string Tag)
           (fun soup selector => soup !! selector)
           (fun s => s) (fun _ => Ok full_page) full_name full_stem full_sibling
           (fun p => bool_decide (p = py "/site/img/rad-140.png")) []
           (py "products/rad-140.html") full_product eq_refl).
Defined.

(** A render that fails on the story format only. *)
Definition story_fails (_ : ProductInfo) (kind : string) (_ : Z * Z) : result unit :=
  if String.eqb kind "story" then Raise (OtherError (py "disk full")) else Ok tt.

Lemma real_run_counts_failed_renders_witness :
  kinds_loop story_fails true (mkArgs true [] false false None) demo_product SIZES 0 0
  = Ok (2, 1).
Proof.
  exact (real_run_counts_failed_renders story_fails true
           (mkArgs true [] false false None) demo_product SIZES 0 0 eq_refl).
Defined.

Example planned_demo :
  planned (fun html => bool_decide (html = py "rad-140.html"))
    (fun _ => Ok demo_product) (mkArgs false [] false false None)
    [py "rad-140.html"; py "bpc-157.html"] = 4.
Proof. vm_compute. reflexivity. Qed.

Lemma products_loop_accounts_witness :
  3 + 1 =
  0 + 0 + planned (fun html => bool_decide (html = py "rad-140.html"))
            (fun _ => Ok demo_product) (mkArgs false [] false false None)
            [py "rad-140.html"; py "bpc-157.html"] /\
  0 <= 3 /\ 0 <= 1.
Proof.
  apply (products_loop_accounts
           (fun html => bool_decide (html = py "rad-140.html"))
           (fun _ => Ok demo_product) (fun _ _ _ => Ok tt) true
           (mkArgs false [] false false None)
           [py "rad-140.html"; py "bpc-157.html"] 0 0 (3, 1)).
  vm_compute. reflexivity.
Defined.

Lemma dry_run_counts_like_success_witness :
  products_loop (fun _ => true) (fun _ => Ok demo_product) (fun _ _ _ => Ok tt) true
    (mkArgs true [] false true None) [py "rad-140.html"] 0 0 =
  products_loop (fun _ => true) (fun _ => Ok demo_product) (fun _ _ _ => Ok tt) true
    (mkArgs true [] false false None) [py "rad-140.html"] 0 0.
Proof.
  apply (dry_run_counts_like_success (fun _ => true) (fun _ => Ok demo_product)
           (fun _ _ _ => Ok tt) true true [] false None [py "rad-140.html"] 0 0).
  - reflexivity.
  - intros html page ks _ _ _. reflexivity.
Defined.

(** ** The photo on its card *)

Section Photo.
Variable P : Type.
Variable lanczos_pixels : Z * Z -> (Z -> Z -> P) -> Z * Z -> Z -> Z -> P.




(** The card of [render_product_image] as [(card_x, card_y, card_w,
    card_h)] and the amount the photo box is smaller than the card: the
    story layout derives the card from the canvas, the square and the
    Open Graph layouts have fixed cards. *)
Definition photo_card (kind : string) (canvas : Z * Z) : (Z * Z * Z * Z) * Z :=
  let '(w, h) := canvas in
  if String.eqb kind "story" then
    let card_x := 140 in
    let card_y := 720 in
    let card_w := w - card_x * 2 in
    let card_h := h - card_y - 240 in
    ((card_x, card_y, card_w, card_h), 140)
  else if String.eqb kind "square" then ((590, 220, 420, 640), 110)
  else ((720, 90, 420, 450), 110).

(** The photo step of [render_product_image]: the photo fitted into the
    card less its inset, and the corner [alpha_composite] pastes it at. *)
Definition place_photo (kind : string) (canvas : Z * Z) (img : Image P)
    : result (Image P * (Z * Z)) :=
  let '((card_x, card_y, card_w, card_h), inset) := photo_card kind canvas in
  let* img := contain P lanczos_pixels img (card_w - inset, card_h - inset) in
  Ok (img, (card_x + (card_w - fst (size img)) / 2,
            card_y + (card_h - snd (size img)) / 2)).

End Photo.


Example place_photo_story :
  (let* placed := place_photo unit (fun _ _ _ _ _ => tt) "story" (1080, 1920)
                    (blank 800 600) in
   Ok (size (fst placed), snd placed))
  = Ok ((660, 495), (210, 952)).
Proof. vm_compute. reflexivity. Qed.

(** ** Requested product pages *)

Lemma str_ltb_irrefl (a : str) : str_ltb a a = false.
Proof.
  induction a as [|x a IH]; simpl; [reflexivity|].
  rewrite N.ltb_irrefl. exact IH.
Qed.

Lemma str_ltb_trans (a : str) : forall b c,
  str_ltb a b = true -> str_ltb b c = true -> str_ltb a c = true.
Proof.
  induction a as [|x a IH]; intros [|y b] [|z c]; simpl; try discriminate; try reflexivity.
  destruct (N.ltb_spec x y), (N.ltb_spec y x), (N.ltb_spec y z), (N.ltb_spec z y),
    (N.ltb_spec x z), (N.ltb_spec z x);
    try lia; try discriminate; try reflexivity.
  apply IH.
Qed.

Lemma str_ltb_total (a : str) : forall b,
  str_ltb a b = false -> str_ltb b a = false -> a = b.
Proof.
  induction a as [|x a IH]; intros [|y b]; simpl; try discriminate; [reflexivity|].
  destruct (N.ltb_spec x y), (N.ltb_spec y x); try discriminate; try lia.
  intros H1 H2. f_equal; [lia | apply IH; assumption].
Qed.

Definition str_lt (a b : str) : Prop := str_ltb a b = true.

Lemma In_insert_sorted (x s : str) (xs : list str) :
  In s (insert_sorted x xs) <-> s = x \/ In s xs.
Proof.
  induction xs as [|y ys IH]; simpl.
  - split; [intros [<-|[]]; left; reflexivity | intros [->|[]]; left; reflexivity].
  - destruct (str_ltb x y) eqn:E1; simpl.
    + split; [intros [<-|H]; [left; reflexivity | right; exact H]
             | intros [->|H]; [left; reflexivity | right; exact H]].
    + destruct (str_ltb y x) eqn:E2; simpl.
      * rewrite IH. split; [intros [H|[H|H]] | intros [H|[H|H]]]; auto.
      * pose proof (str_ltb_total x y E1 E2) as ->.
        split; [intros H; right; exact H | intros [->|H]; [left; reflexivity | exact H]].
Qed.

Lemma insert_sorted_sorted (x : str) (xs : list str) :
  StronglySorted str_lt xs -> StronglySorted str_lt (insert_sorted x xs).
Proof.
  induction 1 as [|y ys Hs IH Hall]; simpl.
  - constructor; constructor.
  - destruct (str_ltb x y) eqn:E1.
    + constructor; [constructor; assumption|].
      constructor; [exact E1|].
      rewrite List.Forall_forall in Hall |- *. intros z Hz.
      apply (str_ltb_trans x y z E1). apply Hall. exact Hz.
    + destruct (str_ltb y x) eqn:E2.
      * constructor; [exact IH|].
        rewrite List.Forall_forall in Hall |- *. intros z Hz.
        apply In_insert_sorted in Hz. destruct Hz as [->|Hz]; [exact E2 | apply Hall; exact Hz].
      * constructor; assumption.
Qed.

Lemma sorted_set_spec (xs : list str) :
  StronglySorted str_lt (sorted_set xs) /\ forall s, In s (sorted_set xs) <-> In s xs.
Proof.
  induction xs as [|x xs [IHs IHi]]; simpl.
  - split; [constructor | intros s; reflexivity].
  - split; [apply insert_sorted_sorted; exact IHs|].
    intros s. rewrite In_insert_sorted, IHi. split; intros [H|H]; auto.
Qed.

Lemma sorted_NoDup (xs : list str) : StronglySorted str_lt xs -> List.NoDup xs.
Proof.
  induction 1 as [|y ys Hs IH Hall]; constructor; [|exact IH].
  intros Hin. rewrite List.Forall_forall in Hall. specialize (Hall y Hin).
  unfold str_lt in Hall. rewrite str_ltb_irrefl in Hall. discriminate.
Qed.

(** X14: The pages a run without [--all] goes through: one page per requested
    slug, the slugs stripped, blank ones dropped, each slug once, in
    increasing order; and the product loop is skipped exactly when every
    requested slug is blank. *)
Theorem html_files_requested (products_glob : list str) (product_html : str -> str)
    (args : Args) :
  args_site_only args = false -> args_all args = false ->
  match html_files products_glob product_html args with
  | None => forall raw, In raw (args_product args) -> strip raw = []
  | Some files =>
      exists wanted,
        files = map product_html wanted /\ wanted <> [] /\
        StronglySorted str_lt wanted /\ List.NoDup wanted /\
        forall s, In s wanted <->
                  s <> [] /\ exists raw, In raw (args_product args) /\ strip raw = s
  end.
Proof.
  intros Hsite Hall. unfold html_files. rewrite Hsite, Hall.
  set (kept := List.filter (fun s => negb (len s =? 0)) (map strip (args_product args))).
  destruct (sorted_set_spec kept) as [Hsorted Hin].
  assert (Hkept : forall s, In s kept <->
            s <> [] /\ exists raw, In raw (args_product args) /\ strip raw = s).
  { intros s. unfold kept. rewrite filter_In, in_map_iff.
    assert (Hlen : negb (len s =? 0) = true <-> s <> []).
    { destruct s; unfold len; simpl; split; try congruence; try discriminate; reflexivity. }
    rewrite Hlen. split.
    - intros [(raw & Hs & Hraw) Hne]. split; [exact Hne|]. exists raw. split; assumption.
    - intros [Hne (raw & Hraw & Hs)]. split; [|exact Hne]. exists raw. split; assumption. }
  destruct (sorted_set kept) as [|w ws] eqn:E.
  - intros raw Hraw. destruct (strip raw) as [|c t] eqn:Es; [reflexivity|exfalso].
    apply (proj2 (Hin (c :: t))). apply Hkept. split; [discriminate|].
    exists raw. split; assumption.
  - exists (w :: ws). split; [reflexivity|]. split; [discriminate|].
    split; [exact Hsorted|]. split; [apply sorted_NoDup; exact Hsorted|].
    intros s. rewrite Hin. apply Hkept.
Qed.

Example html_files_demo :
  html_files [] (fun slug => py "products/" ++ slug ++ py ".html")
    (mkArgs false [py " rad-140 "; py "bpc-157"; py "rad-140"; py "  "] false false None)
  = Some [py "products/bpc-157.html"; py "products/rad-140.html"].
Proof. vm_compute. reflexivity. Qed.

Lemma html_files_requested_witness :
  exists wanted,
    [py "products/bpc-157.html"; py "products/rad-140.html"]
    = map (fun slug => py "products/" ++ slug ++ py ".html") wanted /\
    wanted <> [] /\ StronglySorted str_lt wanted /\ List.NoDup wanted /\
    forall s, In s wanted <->
              s <> [] /\
              exists raw,
                In raw [py " rad-140 "; py "bpc-157"; py "rad-140"; py "  "] /\
                strip raw = s.
Proof.
  apply (html_files_requested [] (fun slug => py "products/" ++ slug ++ py ".html")
           (mkArgs false [py " rad-140 "; py "bpc-157"; py "rad-140"; py "  "]
              false false None));
    reflexivity.
Defined.
